(** * Scheduling conflict solver: a shallow embedding of [scheduling.py]

    The solver part of the script is embedded here: the weekly table
    ([Schedule]), the subjects with their transient [allocated_times], the
    per-subject cursor over boolean tuples ([Allocation]) and the recursive
    traversal [percolate] with its process-wide counters.

    Conventions.
    - A [datetime] of the week is the number of minutes since 00:00 of
      [day0]; [timedelta(minutes=5)] is the integer [5].
    - A Python [dict] is a [gmap], a Python [set] a [gset]; reading a missing
      key raises [KeyError], indexing a list out of range raises
      [IndexError].
    - Python exceptions are the [Raise] results of the [res] monad. The
      [limit] of [percolate] bounds the nesting of the calls of [percolate]
      only; the recursion limit of the interpreter counts every frame (the
      thread, [create_schedule], [is_free], the writers) and is reached
      sooner.
    - The writers ([plain_write], [fancy_write],
      [create_graphical_calendar]) and the file parser are left out. The
      writers do not change the state of the solver, but
      [create_graphical_calendar] can raise on its own (a slot whose end is
      off the five-minute raster), which ends the run: the theorems on a run
      describe the solver part, up to that point. *)

From Stdlib Require Import Ascii.
From stdpp Require Import base gmap sets list strings pretty.

Open Scope Z_scope.

(** ** Exceptions *)

Inductive exn := IndexError | KeyError | RecursionError.

Inductive res (A : Type) : Type :=
| Ok (a : A)
| Raise (e : exn).
Arguments Ok {A} a.
Arguments Raise {A} e.

#[global] Instance res_ret : MRet res := @Ok.
#[global] Instance res_bind : MBind res :=
  λ A B f m, match m with Ok a => f a | Raise e => Raise e end.

(** [l[i]] on a Python list or tuple, for a non-negative [i]. *)
Definition getitem {A} (l : list A) (i : nat) : res A :=
  match l !! i with
  | Some x => Ok x
  | None => Raise IndexError
  end.

(** [for x in l: s = body(x, s)], stopping at the first exception. *)
Fixpoint for_each {A S} (l : list A) (body : A → S → res S) (s : S) : res S :=
  match l with
  | [] => Ok s
  | x :: l' => s' ← body x s; for_each l' body s'
  end.

(** ** Module-level configuration *)

Definition start_of_day : Z := 8.
Definition end_of_day : Z := 20.
Definition day0 : Z := 2.

(** [datetime(year, month, day, hh, mm)], in minutes since 00:00 of [day0]. *)
Definition datetime (day hh mm : Z) : Z := ((day - day0) * 24 + hh) * 60 + mm.

(** [range(start, stop)] and [range(start, stop, step)] for a positive step. *)
Definition range (start stop : Z) : list Z := seqZ start (stop - start).
Definition range_step (start stop step : Z) : list Z :=
  (λ k, start + step * k) <$> seqZ 0 ((stop - start + step - 1) `div` step).

(** Truth value of a Python string: only the empty string is false. *)
Definition truthy (s : string) : bool :=
  match s with
  | EmptyString => false
  | String _ _ => true
  end.

(** ** Subjects *)

Inductive subject_type := UE | VO.

#[global] Instance subject_type_eq_dec : EqDecision subject_type.
Proof. solve_decision. Defined.

Record Subject := mkSubject {
  name : string;
  type : subject_type;
  times : list (Z * Z);
  allocated_times : gset (Z * Z);
}.

#[global] Instance Subject_eq_dec : EqDecision Subject.
Proof. solve_decision. Defined.

Definition mark_allocated (self : Subject) (selected_time : Z * Z) : Subject :=
  mkSubject (name self) (type self) (times self)
            ({[selected_time]} ∪ allocated_times self).

Definition is_complete (self : Subject) : bool :=
  match type self with
  | VO => bool_decide (allocated_times self = list_to_set (times self))
  | UE => bool_decide (1 ≤ size (allocated_times self))%nat
  end.

Definition is_partially_complete (self : Subject) : bool :=
  bool_decide (1 ≤ size (allocated_times self))%nat.

Definition reset (self : Subject) : Subject :=
  mkSubject (name self) (type self) (times self) ∅.

(** ** Allocations: a cursor over the valid boolean tuples of a subject *)

(** [itertools.product] over a list of pools, as its documentation
    defines it: [result = [[]]], then for each pool
    [result = [x+[y] for x in result for y in pool]]. The rightmost position
    varies fastest. *)
Definition extend {A} (result : list (list A)) (pool : list A)
  : list (list A) :=
  x ← result; y ← pool; [x ++ [y]].

Definition product {A} (pools : list (list A)) : list (list A) :=
  foldl extend [[]] pools.

Definition any (booltuple : list bool) : bool := existsb id booltuple.

(** [sum] of a tuple of booleans, [True] counting for one. *)
Definition sum (booltuple : list bool) : Z :=
  foldr (λ (b : bool) acc, (if b then 1 else 0) + acc) 0 booltuple.

Record Allocation := mkAllocation {
  index : nat;
  has_reached_end : bool;
  __array : list (list bool);
}.

Definition Allocation_init (subject : Subject) : Allocation :=
  let tmp := product (replicate (length (times subject)) [true; false]) in
  mkAllocation 0%nat false
    (match type subject with
     | VO => filter (λ booltuple, any booltuple = true) tmp
     | UE => filter (λ booltuple, sum booltuple = 1) tmp
     end).

Definition get_array (self : Allocation) : res (list bool) :=
  getitem (__array self) (index self).

Definition advance (self : Allocation) : Allocation :=
  if bool_decide (Z.of_nat (index self) < Z.of_nat (length (__array self)) - 1)
  then mkAllocation (index self + 1)%nat (has_reached_end self) (__array self)
  else mkAllocation (index self) true (__array self).

Definition reverse (self : Allocation) : Allocation :=
  if bool_decide (0 < index self)%nat
  then mkAllocation (index self - 1)%nat (has_reached_end self) (__array self)
  else self.

Definition reset_end_status (self : Allocation) : Allocation :=
  mkAllocation (index self) false (__array self).

(** ** Schedules *)

Record Schedule := mkSchedule {
  table : option (gmap Z string);
  is_incomplete : bool;
}.

Definition empty_schedule : gmap Z string :=
  foldl (λ sched day,
    foldl (λ sched hh,
      foldl (λ sched mm, <[datetime day hh mm := ""%string]> sched)
            sched (range_step 0 60 5))
          sched (range start_of_day end_of_day))
        ∅ (range day0 (day0 + 5)).

(** The [while t < selected_time[1]] loop of [is_free]. The loop counter only
    bounds the number of iterations; [stop - t] of them are always enough,
    as [t] grows by 5 each time (lemma [is_free_loop_fuel]). *)
Fixpoint is_free_loop (n : nat) (schedule : gmap Z string) (t stop : Z)
  : res bool :=
  if bool_decide (t < stop) then
    match n with
    | O => Ok true
    | S n' =>
        match schedule !! t with
        | None => Raise KeyError
        | Some v =>
            if truthy v then Ok false
            else is_free_loop n' schedule (t + 5) stop
        end
    end
  else Ok true.

Definition is_free (schedule : gmap Z string) (selected_time : Z * Z)
  : res bool :=
  is_free_loop (Z.to_nat (selected_time.2 - selected_time.1))
               schedule selected_time.1 selected_time.2.

(** The [while] loop of [fill]; assigning to a key never raises. *)
Fixpoint fill_loop (n : nat) (schedule : gmap Z string) (subject_name : string)
    (t stop : Z) : gmap Z string :=
  if bool_decide (t < stop) then
    match n with
    | O => schedule
    | S n' => fill_loop n' (<[t := subject_name]> schedule) subject_name
                        (t + 5) stop
    end
  else schedule.

Definition fill (schedule : gmap Z string) (subject : Subject)
    (selected_time : Z * Z) : gmap Z string :=
  fill_loop (Z.to_nat (selected_time.2 - selected_time.1))
            schedule (name subject) selected_time.1 selected_time.2.

(** *** [create_schedule]

    The state of the two allocation passes is the list of subjects (whose
    [allocated_times] are mutated in place) and the table being filled. *)

(** Body of the first pass, for subject [i] and slot [j]. *)
Definition first_pass_slot (allocations : list Allocation) (i j : nat)
    (st : list Subject * gmap Z string) : res (list Subject * gmap Z string) :=
  let '(subjects, newsched) := st in
  allocation ← getitem allocations i;
  booltuple ← get_array allocation;
  selected ← getitem booltuple j;
  if (selected : bool) then
    subject ← getitem subjects i;
    selected_time ← getitem (times subject) j;
    free ← is_free newsched selected_time;
    if (free : bool) then
      Ok (<[i := mark_allocated subject selected_time]> subjects,
          fill newsched subject selected_time)
    else Ok st
  else Ok st.

Definition first_pass_subject (allocations : list Allocation) (i : nat)
    (st : list Subject * gmap Z string) : res (list Subject * gmap Z string) :=
  subject ← getitem st.1 i;
  for_each (seq 0 (length (times subject))) (first_pass_slot allocations i) st.

Definition first_pass (allocations : list Allocation)
    (st : list Subject * gmap Z string) : res (list Subject * gmap Z string) :=
  for_each (seq 0 (length st.1)) (first_pass_subject allocations) st.

(** Body of the second pass, for the subject at position [i] and one of its
    times. The subject is read again at each step: it is the object the
    previous steps marked. *)
Definition second_pass_slot (i : nat) (selected_time : Z * Z)
    (st : list Subject * gmap Z string) : res (list Subject * gmap Z string) :=
  let '(subjects, newsched) := st in
  subject ← getitem subjects i;
  if bool_decide (selected_time ∉ allocated_times subject) then
    free ← is_free newsched selected_time;
    if (free : bool) then
      Ok (<[i := mark_allocated subject selected_time]> subjects,
          fill newsched subject selected_time)
    else Ok st
  else Ok st.

Definition second_pass_subject (i : nat)
    (st : list Subject * gmap Z string) : res (list Subject * gmap Z string) :=
  subject ← getitem st.1 i;
  match type subject with
  | VO => for_each (times subject) (second_pass_slot i) st
  | UE => Ok st
  end.

Definition second_pass (st : list Subject * gmap Z string)
  : res (list Subject * gmap Z string) :=
  for_each (seq 0 (length st.1)) second_pass_subject st.

(** The two passes over an empty table. *)
Definition materialize (subjects : list Subject) (allocations : list Allocation)
  : res (list Subject * gmap Z string) :=
  st ← first_pass allocations (subjects, empty_schedule);
  second_pass st.

(** Body of the last loop: the flags [(is_incomplete, total_failure)]. *)
Definition classify_subject (flags : bool * bool) (subject : Subject)
  : bool * bool :=
  if negb (is_partially_complete subject) then (flags.1, true)
  else if negb (is_complete subject) then (true, flags.2)
  else flags.

(** [Schedule(subjects=..., allocations=...)]: the subjects after the call
    and the new object; its [table] is [None] on a total failure. *)
Definition create_schedule (subjects : list Subject)
    (allocations : list Allocation) : res (list Subject * Schedule) :=
  '(subjects, newsched) ← materialize subjects allocations;
  let flags := foldl classify_subject (false, false) subjects in
  Ok (reset <$> subjects,
      mkSchedule (if flags.2 then None else Some newsched) flags.1).

(** [Schedule.__eq__]. *)
Definition Schedule_eq (self other : Schedule) : bool :=
  bool_decide (table self = table other).

(** ** The traversal *)

Record State := mkState {
  subjects : list Subject;
  allocations : list Allocation;
  permutations : gset (list (list bool));
  saved_schedules : list Schedule;
  duplicates : nat;
  version : nat;
}.

(** [not schedule.table]: [None] and the empty dict are false. *)
Definition table_is_false (schedule : Schedule) : bool :=
  match table schedule with
  | None => true
  | Some t => bool_decide (t = ∅)
  end.

(** The part of [percolate] between the memo test and the final loop:
    build the schedule, compare it with the saved ones, save it. Comparing
    two tables raises neither [AttributeError] nor [TypeError] ([None] is
    simply different from a dict), so the [except] branch is never taken. *)
Definition evaluate (st : State) : res State :=
  '(subjects', schedule) ← create_schedule (subjects st) (allocations st);
  let duplicate := existsb (Schedule_eq schedule) (saved_schedules st) in
  let duplicates' := if duplicate then S (duplicates st) else duplicates st in
  let failed := table_is_false schedule in
  if negb duplicate && negb failed then
    Ok (mkState subjects' (allocations st) (permutations st)
                (saved_schedules st ++ [schedule]) duplicates' (S (version st)))
  else
    Ok (mkState subjects' (allocations st) (permutations st)
                (saved_schedules st) duplicates' (version st)).

Definition set_allocations (st : State) (l : list Allocation) : State :=
  mkState (subjects st) l (permutations st) (saved_schedules st)
          (duplicates st) (version st).

Definition add_permutation (st : State) (p : list (list bool)) : State :=
  mkState (subjects st) (allocations st) ({[p]} ∪ permutations st)
          (saved_schedules st) (duplicates st) (version st).

(** [allocations[i].f()] for a method [f] that mutates the cursor. *)
Definition call_on (f : Allocation → Allocation) (i : nat) (st : State)
  : State :=
  set_allocations st (alter f i (allocations st)).

(** [perm_check]: the current tuple of every cursor. *)
Fixpoint current_arrays (allocations : list Allocation)
  : res (list (list bool)) :=
  match allocations with
  | [] => Ok []
  | element :: rest =>
      a ← get_array element;
      r ← current_arrays rest;
      Ok (a :: r)
  end.

Fixpoint percolate (limit : nat) (st : State) : res State :=
  match limit with
  | O => Raise RecursionError
  | S limit' =>
      match list_find (λ a, has_reached_end a = true) (allocations st) with
      | Some (i, _) => Ok (call_on reset_end_status i st)
      | None =>
          perm_check ← current_arrays (allocations st);
          if bool_decide (perm_check ∈ permutations st) then Ok st
          else
            st ← evaluate (add_permutation st perm_check);
            for_each (seq 0 (length (allocations st)))
              (λ i st,
                 st ← percolate limit' (call_on advance i st);
                 Ok (call_on reverse i st))
              st
      end
  end.

(** The module-level start of the run. *)
Definition initial_state (subjects : list Subject) : State :=
  mkState subjects (Allocation_init <$> subjects) ∅ [] 0%nat 0%nat.

Definition solve (limit : nat) (subjects : list Subject) : res State :=
  percolate limit (initial_state subjects).

(** * Notions used in the statements *)

(** ** Time slots *)

(** The instants the two [while] loops visit for a slot: from its start
    (included) to its end (excluded), in steps of five minutes. *)
Definition on_tick (selected_time : Z * Z) (t : Z) : Prop :=
  selected_time.1 ≤ t < selected_time.2 ∧ (t - selected_time.1) `mod` 5 = 0.

#[global] Instance on_tick_dec selected_time t :
  Decision (on_tick selected_time t).
Proof. unfold on_tick. apply _. Defined.

(** Every instant of every slot is a key of the weekly table. *)
Definition on_grid (subjects : list Subject) : Prop :=
  ∀ s slot t, s ∈ subjects → slot ∈ times s → on_tick slot t →
              is_Some (empty_schedule !! t).

(** ** Valid tuples *)

(** The tuples a subject of each kind asks for: exactly one true entry for a
    UE subject, at least one for a VO subject. *)
Definition valid_vector (subject : Subject) (v : list bool) : Prop :=
  length v = length (times subject) ∧
  match type subject with
  | UE => ∃ j, v !! j = Some true ∧ ∀ k, v !! k = Some true → k = j
  | VO => ∃ j, v !! j = Some true
  end.

(** The cursors of a run: one per subject, over the tuples
    [Allocation.__init__] computed for it. The three cursor methods move the
    position and the flag only. *)
Definition cursors_of (subjects : list Subject)
    (allocations : list Allocation) : Prop :=
  Forall2 (λ s a, __array a = __array (Allocation_init s)) subjects allocations.

(** ** Allocation steps *)

(** The only change [create_schedule] ever makes to the table and to the
    subjects: a slot found free is filled with the name of its subject and
    marked as allocated. In the first pass the slot is one selected by the
    current tuple of the subject, in the second pass one that a VO subject
    has not been allocated yet. *)
Inductive step (allocations : list Allocation)
  : list Subject * gmap Z string → list Subject * gmap Z string → Prop :=
| step_first i j allocation booltuple subjects newsched subject selected_time :
    allocations !! i = Some allocation →
    get_array allocation = Ok booltuple →
    booltuple !! j = Some true →
    subjects !! i = Some subject →
    times subject !! j = Some selected_time →
    is_free newsched selected_time = Ok true →
    step allocations (subjects, newsched)
         (<[i := mark_allocated subject selected_time]> subjects,
          fill newsched subject selected_time)
| step_second i subjects newsched subject selected_time :
    subjects !! i = Some subject →
    type subject = VO →
    selected_time ∈ times subject →
    selected_time ∉ allocated_times subject →
    is_free newsched selected_time = Ok true →
    step allocations (subjects, newsched)
         (<[i := mark_allocated subject selected_time]> subjects,
          fill newsched subject selected_time).

(** Every allocated slot is one of the times of its subject. *)
Definition allocated_within (subjects : list Subject) : Prop :=
  ∀ k s selected_time,
    subjects !! k = Some s → selected_time ∈ allocated_times s →
    selected_time ∈ times s.

(** Every instant of an allocated slot holds the name of its subject. *)
Definition names_on_ticks (st : list Subject * gmap Z string) : Prop :=
  ∀ k s selected_time t,
    st.1 !! k = Some s → selected_time ∈ allocated_times s →
    on_tick selected_time t → st.2 !! t = Some (name s).

(** Every slot allocated to a UE subject is one its current tuple selects:
    the second pass leaves UE subjects alone. *)
Definition selected_only (allocations : list Allocation)
    (subjects : list Subject) : Prop :=
  ∀ k s selected_time,
    subjects !! k = Some s → type s = UE →
    selected_time ∈ allocated_times s →
    ∃ allocation booltuple j,
      allocations !! k = Some allocation ∧
      get_array allocation = Ok booltuple ∧
      booltuple !! j = Some true ∧ times s !! j = Some selected_time.

(** What the loops of [create_schedule] keep: the subjects are those of the
    start, up to their allocated times, and the table has all the keys of
    the empty one. *)
Definition well_formed (subjects0 : list Subject)
    (st : list Subject * gmap Z string) : Prop :=
  reset <$> st.1 = reset <$> subjects0 ∧
  ∀ t, is_Some (empty_schedule !! t) → is_Some (st.2 !! t).

(** A schedule that [create_schedule] returned with its table, for some
    position of the cursors. *)
Definition accepted_from (subjects : list Subject) (schedule : Schedule)
  : Prop :=
  ∃ allocations subjects' newsched,
    cursors_of subjects allocations ∧
    materialize subjects allocations = Ok (subjects', newsched) ∧
    schedule =
      mkSchedule (Some newsched)
                 (foldl classify_subject (false, false) subjects').1 ∧
    (foldl classify_subject (false, false) subjects').2 = false.

(** ** The two passes, as the specification words them

    These definitions follow the words of the specification (section 4.3),
    not the script; [create_schedule] is compared with them below. The
    first-come pass goes through the subjects in list order and through the
    slots of each in declaration order, and gives every selected slot whose
    whole range is free to its subject. The fill pass then gives every VO
    subject each of its slots that is not allocated yet and whose range is
    still free; it is not given the selection vectors. A grid cell is free
    when it holds the empty string. *)

Definition spec_slot_ticks (slot : Z * Z) : list Z :=
  range_step slot.1 slot.2 5.

Definition spec_range_is_free (grid : gmap Z string) (slot : Z * Z) : bool :=
  forallb (λ t, bool_decide (grid !! t = Some ""%string))
          (spec_slot_ticks slot).

Definition spec_write_range (grid : gmap Z string) (nm : string)
    (slot : Z * Z) : gmap Z string :=
  foldl (λ g t, <[t := nm]> g) grid (spec_slot_ticks slot).

Definition spec_allocate_if_free (slot : Z * Z)
    (acc : gmap Z string * Subject) : gmap Z string * Subject :=
  if spec_range_is_free acc.1 slot
  then (spec_write_range acc.1 (name acc.2) slot, mark_allocated acc.2 slot)
  else acc.

Definition spec_first_come_slot (acc : gmap Z string * Subject)
    (choice : (Z * Z) * bool) : gmap Z string * Subject :=
  if choice.2 then spec_allocate_if_free choice.1 acc else acc.

Definition spec_first_come_subject (subject : Subject) (vector : list bool)
    (grid : gmap Z string) : gmap Z string * Subject :=
  foldl spec_first_come_slot (grid, subject) (zip (times subject) vector).

Fixpoint spec_first_come_pass (subjects : list Subject)
    (vectors : list (list bool)) (grid : gmap Z string)
  : gmap Z string * list Subject :=
  match subjects, vectors with
  | subject :: subjects, vector :: vectors =>
      let '(grid, subject) := spec_first_come_subject subject vector grid in
      let '(grid, rest) := spec_first_come_pass subjects vectors grid in
      (grid, subject :: rest)
  | _, _ => (grid, [])
  end.

Definition spec_fill_slot (acc : gmap Z string * Subject) (slot : Z * Z)
  : gmap Z string * Subject :=
  if bool_decide (slot ∈ allocated_times acc.2) then acc
  else spec_allocate_if_free slot acc.

Definition spec_fill_subject (subject : Subject) (grid : gmap Z string)
  : gmap Z string * Subject :=
  match type subject with
  | VO => foldl spec_fill_slot (grid, subject) (times subject)
  | UE => (grid, subject)
  end.

Fixpoint spec_fill_pass (subjects : list Subject) (grid : gmap Z string)
  : gmap Z string * list Subject :=
  match subjects with
  | subject :: subjects =>
      let '(grid, subject) := spec_fill_subject subject grid in
      let '(grid, rest) := spec_fill_pass subjects grid in
      (grid, subject :: rest)
  | [] => (grid, [])
  end.

Definition spec_two_passes (subjects : list Subject)
    (vectors : list (list bool)) : gmap Z string * list Subject :=
  let '(grid, subjects) :=
    spec_first_come_pass subjects vectors empty_schedule in
  spec_fill_pass subjects grid.

(** ** Sample subjects *)

(** Whether a computation returned, rather than raised. *)
Definition returns {A} (r : res A) : bool :=
  match r with
  | Ok _ => true
  | Raise _ => false
  end.

(** Runs [p] on the value a computation returned. *)
Definition holds_after {A} (r : res A) (p : A → bool) : bool :=
  match r with
  | Ok a => p a
  | Raise _ => false
  end.

(** The hour that starts at [hh] o'clock, [day] days after Monday. *)
Definition hour (day hh : Z) : Z * Z :=
  (datetime (day0 + day) hh 0, datetime (day0 + day) (hh + 1) 0).

(** A lecture on Monday and Tuesday, 8:00 to 9:30. *)
Definition demo_lecture : Subject :=
  mkSubject "lecture" VO [(480, 570); (1920, 2010)] ∅.

(** An exercise on Monday 8:00 to 9:30 or Tuesday 10:00 to 11:30. *)
Definition demo_exercise : Subject :=
  mkSubject "exercise" UE [(480, 570); (2040, 2130)] ∅.

(** What the parser builds from a file that holds the line UE only. *)
Definition demo_no_times : Subject := mkSubject "empty" UE [] ∅.

(** Three UE subjects with four, three and three times, none of which
    overlap: one hour each on Monday, Tuesday and Wednesday morning. *)
Definition three_subjects : list Subject :=
  [ mkSubject "algebra" UE [hour 0 8; hour 0 9; hour 0 10; hour 0 11] ∅;
    mkSubject "biology" UE [hour 1 8; hour 1 9; hour 1 10] ∅;
    mkSubject "chemistry" UE [hour 2 8; hour 2 9; hour 2 10] ∅ ].

(** The first time of algebra, the last of biology, the first of
    chemistry. *)
Definition missed_combination : list (list bool) :=
  [ [true; false; false; false]; [false; false; true]; [true; false; false] ].

(** The combination [missed_combination] as positions of the cursors. *)
Definition missed_cursors : list Allocation :=
  zip_with (λ s k, mkAllocation k false (__array (Allocation_init s)))
           three_subjects [0; 2; 0]%nat.

(** The number of saved schedules, of incomplete ones among them, and of
    duplicates. *)
Definition summary (st : State) : nat * nat * nat :=
  (length (saved_schedules st),
   length (filter (λ schedule, is_incomplete schedule = true)
                  (saved_schedules st)),
   duplicates st).

(** ** Notions used in the further properties *)

(** ** Cursors and runs *)

(** A cursor that stands on one of its tuples. *)
Definition in_range (a : Allocation) : Prop :=
  (index a < length (__array a))%nat.

(** The combinations of a run: one tuple per cursor. *)
Definition combinations (st : State) : gset (list (list bool)) :=
  list_to_set (product (__array <$> allocations st)).

(** The number of combinations that are not in the memo set yet. *)
Definition remaining (st : State) : nat :=
  size (combinations st ∖ permutations st).

(** What a run keeps between two calls of [percolate]: the subjects, with no
    allocated time, one cursor per subject over the tuples computed for it,
    each of them on one of its tuples. *)
Definition run_invariant (subjects0 : list Subject) (st : State) : Prop :=
  subjects st = subjects0 ∧
  cursors_of subjects0 (allocations st) ∧
  Forall in_range (allocations st).

(** What a call of [percolate] that returns has done to the state it was
    given: the memo set has grown, by tuples of the cursors, and the two
    counters have grown by no more than the memo set. *)
Definition run_progress (all : gset (list (list bool))) (st st' : State)
  : Prop :=
  permutations st ⊆ permutations st' ∧
  (permutations st ⊆ all → permutations st' ⊆ all) ∧
  (version st' + duplicates st' + size (permutations st)
   ≤ version st + duplicates st + size (permutations st'))%nat.

(** The exceptions a call can end with: never [IndexError]; [KeyError] only
    when some slot leaves the weekly table; [RecursionError] only when the
    limit on the nesting of [percolate] does not exceed the number [bound]. *)
Definition may_raise (subjects0 : list Subject) (limit bound : nat)
    (e : exn) : Prop :=
  match e with
  | IndexError => False
  | KeyError => ¬ on_grid subjects0
  | RecursionError => (limit ≤ bound)%nat
  end.

(** How a computation ends: with a value that satisfies [Q], or with an
    exception that satisfies [E]. *)
Definition ends_with {A} (Q : A → Prop) (E : exn → Prop) (r : res A) : Prop :=
  match r with
  | Ok a => Q a
  | Raise e => E e
  end.

(** The number of combinations of a subject list: the product of the
    numbers of tuples of its cursors. *)
Definition combination_count (subjects : list Subject) : nat :=
  foldr Nat.mul 1%nat
        ((λ s, length (__array (Allocation_init s))) <$> subjects).

(** At most one cursor has its end flag up. *)
Definition at_most_one_flag (l : list Allocation) : Prop :=
  ∀ i j a b, l !! i = Some a → l !! j = Some b →
             has_reached_end a = true → has_reached_end b = true → i = j.

(** The cursor [a'] has the tuples of [a], is not further than [a] and has
    its end flag down. *)
Definition not_after (a a' : Allocation) : Prop :=
  __array a' = __array a ∧ (index a' ≤ index a)%nat ∧
  has_reached_end a' = false.

(** The instants of the weekly table, by their number of minutes: Monday
    to Friday, from the start of the day to its end, every five minutes. *)
Definition in_week (t : Z) : Prop :=
  0 ≤ t < 5 * 24 * 60 ∧
  start_of_day * 60 ≤ t `mod` (24 * 60) < end_of_day * 60 ∧
  t `mod` 5 = 0.

#[global] Instance in_week_dec t : Decision (in_week t).
Proof. unfold in_week. apply _. Defined.

(** Every name in the table stands on an instant of a slot allocated to a
    subject of that name. *)
Definition written_by_allocations (st : list Subject * gmap Z string) : Prop :=
  ∀ t v, st.2 !! t = Some v → v ≠ ""%string →
         ∃ s selected_time,
           s ∈ st.1 ∧ selected_time ∈ allocated_times s ∧
           on_tick selected_time t ∧ v = name s.

(** ** File names

    [create_filename] reads the global [version]; the counter is passed
    here. [str] of a non-negative integer is its decimal writing. *)
Definition create_filename (version : nat) (schedule : Schedule) : string :=
  let completeness :=
    if is_incomplete schedule then "_INCOMPLETE_"%string else ""%string in
  ("schedule" +:+ pretty version +:+ completeness)%string.

(** No character of the string is an underscore. *)
Fixpoint no_underscore (s : string) : Prop :=
  match s with
  | EmptyString => True
  | String c s' => c ≠ "_"%char ∧ no_underscore s'
  end.

(** * Properties *)

(** ** The [res] monad and the loops *)

Lemma bind_Ok {A B} (m : res A) (f : A → res B) (b : B) :
  m ≫= f = Ok b ↔ ∃ a, m = Ok a ∧ f a = Ok b.
Proof.
  destruct m as [a|e]; simpl; split.
  - intros H. by exists a.
  - by intros (a' & [= ->] & H).
  - intros H. discriminate H.
  - by intros (a' & [=] & _).
Qed.

Lemma returns_Ok {A} (r : res A) : returns r = true → ∃ a, r = Ok a.
Proof. destruct r as [a|e]; [by exists a|done]. Qed.

Lemma getitem_Ok {A} (l : list A) (i : nat) (x : A) :
  getitem l i = Ok x ↔ l !! i = Some x.
Proof. unfold getitem. destruct (l !! i); naive_solver. Qed.

(** Invariant rule of the [for] loop. *)
Lemma for_each_invariant {A S} (P : S → Prop) (l : list A)
    (body : A → S → res S) (s s' : S) :
  (∀ x s1 s2, x ∈ l → P s1 → body x s1 = Ok s2 → P s2) →
  P s → for_each l body s = Ok s' → P s'.
Proof.
  revert s. induction l as [|x l IH]; intros s Hbody Hs Hrun; simpl in Hrun.
  - by injection Hrun as <-.
  - apply bind_Ok in Hrun as (s1 & Hx & Hrun).
    apply (IH s1); [|by eapply Hbody; [left|..]|done].
    intros y s2 s3 Hy. apply Hbody. by right.
Qed.

(** A loop whose body cannot raise runs to its end. *)
Lemma for_each_total {A S} (P : S → Prop) (l : list A)
    (body : A → S → res S) (s : S) :
  (∀ x s1, x ∈ l → P s1 → ∃ s2, body x s1 = Ok s2 ∧ P s2) →
  P s → ∃ s', for_each l body s = Ok s' ∧ P s'.
Proof.
  revert s. induction l as [|x l IH]; intros s Hbody Hs; simpl.
  - by exists s.
  - destruct (Hbody x s) as (s1 & -> & Hs1); [by left|done|]. simpl.
    apply IH; [|done]. intros y s2 Hy. apply Hbody. by right.
Qed.

Lemma truthy_false (v : string) : truthy v = false ↔ v = ""%string.
Proof. by destruct v. Qed.

Lemma truthy_true (v : string) : truthy v = true ↔ v ≠ ""%string.
Proof. by destruct v. Qed.

(** ** Ticks of a time slot *)

Lemma on_tick_step (t0 stop t : Z) :
  t0 < stop → on_tick (t0, stop) t ↔ t = t0 ∨ on_tick (t0 + 5, stop) t.
Proof.
  unfold on_tick. simpl. intros Hlt.
  assert ((t - (t0 + 5)) `mod` 5 = (t - t0) `mod` 5) as ->.
  { replace (t - (t0 + 5)) with ((t - t0) + (-1) * 5) by lia.
    apply Z.mod_add. lia. }
  split.
  - intros [Ht Hmod]. destruct (decide (t = t0)) as [|Hne]; [by left|right].
    split; [|done]. destruct (decide (t - t0 < 5)); [|lia].
    rewrite Z.mod_small in Hmod by lia. lia.
  - intros [->|[Ht Hmod]].
    + rewrite Z.sub_diag. split; [lia|done].
    + split; [lia|done].
Qed.

Lemma on_tick_done (t0 stop t : Z) : ¬ t0 < stop → ¬ on_tick (t0, stop) t.
Proof. unfold on_tick. simpl. lia. Qed.

Lemma fill_loop_lookup (n : nat) (g : gmap Z string) (nm : string)
    (t0 stop t : Z) :
  (Z.to_nat (stop - t0) ≤ n)%nat →
  fill_loop n g nm t0 stop !! t =
    if decide (on_tick (t0, stop) t) then Some nm else g !! t.
Proof.
  revert g t0.
  induction n as [|n IH]; intros g t0 Hn; simpl; case_bool_decide as Hlt.
  - lia.
  - case_decide as Hon; [by apply on_tick_done in Hon|done].
  - rewrite IH by lia. pose proof (on_tick_step t0 stop t Hlt) as Hstep.
    destruct (decide (t = t0)) as [->|Hne].
    + rewrite lookup_insert_eq. repeat case_decide; first [done|tauto].
    + rewrite lookup_insert_ne by done.
      repeat case_decide; first [done|tauto].
  - case_decide as Hon; [by apply on_tick_done in Hon|done].
Qed.

Lemma fill_lookup (g : gmap Z string) (subject : Subject)
    (selected_time : Z * Z) (t : Z) :
  fill g subject selected_time !! t =
    if decide (on_tick selected_time t) then Some (name subject) else g !! t.
Proof.
  unfold fill. rewrite fill_loop_lookup by done. by destruct selected_time.
Qed.

(** The table lookups [is_free] makes are inside the slot. *)
Lemma is_free_loop_ext (n : nat) (g g' : gmap Z string) (t0 stop : Z) :
  (∀ t, t0 ≤ t < stop → g' !! t = g !! t) →
  is_free_loop n g' t0 stop = is_free_loop n g t0 stop.
Proof.
  revert t0. induction n as [|n IH]; intros t0 Hext; simpl; [done|].
  case_bool_decide; [|done]. rewrite Hext by lia.
  destruct (g !! t0) as [v|]; [|done]. destruct (truthy v); [done|].
  apply IH. intros t Ht. apply Hext. lia.
Qed.

Lemma is_free_loop_true (n : nat) (g : gmap Z string) (t0 stop : Z) :
  (Z.to_nat (stop - t0) ≤ n)%nat →
  is_free_loop n g t0 stop = Ok true ↔
  ∀ t, on_tick (t0, stop) t → g !! t = Some ""%string.
Proof.
  revert t0.
  induction n as [|n IH]; intros t0 Hn; simpl; case_bool_decide as Hlt.
  - lia.
  - split; [|done]. intros _ t Hon. by apply on_tick_done in Hon.
  - assert (on_tick (t0, stop) t0) as Hon0 by (apply on_tick_step; auto).
    destruct (g !! t0) as [v|] eqn:Hv.
    + destruct (truthy v) eqn:Htr.
      * split; [done|]. intros Hall. rewrite Hall in Hv by done.
        by injection Hv as <-.
      * apply truthy_false in Htr as ->. rewrite IH by lia. split.
        -- intros Hall t [->|Hon]%on_tick_step; auto.
        -- intros Hall t Hon. apply Hall, on_tick_step; auto.
    + split; [done|]. intros Hall. by rewrite Hall in Hv.
  - split; [|done]. intros _ t Hon. by apply on_tick_done in Hon.
Qed.

Lemma is_free_true (g : gmap Z string) (selected_time : Z * Z) :
  is_free g selected_time = Ok true ↔
  ∀ t, on_tick selected_time t → g !! t = Some ""%string.
Proof.
  unfold is_free. rewrite is_free_loop_true by done. by destruct selected_time.
Qed.

Lemma is_free_loop_false (n : nat) (g : gmap Z string) (t0 stop : Z) :
  is_free_loop n g t0 stop = Ok false →
  ∃ t v, on_tick (t0, stop) t ∧ g !! t = Some v ∧ v ≠ ""%string.
Proof.
  revert t0.
  induction n as [|n IH]; intros t0; simpl; case_bool_decide as Hlt;
    try done.
  destruct (g !! t0) as [v|] eqn:Hv; [|done].
  destruct (truthy v) eqn:Htr.
  - intros _. exists t0, v. apply truthy_true in Htr.
    split; [apply on_tick_step; auto|done].
  - intros (t & w & Hon & Hw)%IH. exists t, w.
    split; [apply on_tick_step; auto|done].
Qed.

Lemma is_free_false (g : gmap Z string) (selected_time : Z * Z) :
  is_free g selected_time = Ok false →
  ∃ t v, on_tick selected_time t ∧ g !! t = Some v ∧ v ≠ ""%string.
Proof. destruct selected_time. apply is_free_loop_false. Qed.

(** [is_free] only raises [KeyError]. *)
Lemma is_free_loop_cases (n : nat) (g : gmap Z string) (t0 stop : Z) :
  (∃ b, is_free_loop n g t0 stop = Ok b) ∨
  is_free_loop n g t0 stop = Raise KeyError.
Proof.
  revert t0. induction n as [|n IH]; intros t0; simpl; case_bool_decide;
    eauto.
  destruct (g !! t0) as [v|]; [|by right]. destruct (truthy v); eauto.
Qed.

(** ** Half-open time slots *)

(** C10. A slot [(a, b)] is the half-open interval from [a] (included) to
    [b] (excluded), for the freeness check and for the fill alike. Both go
    through the instants [a], [a + 5], [a + 10], ... below [b]: [is_free]
    answers [True] exactly when every one of them is a key that holds the
    empty string, and answers [False] only when one of them holds a name;
    [fill] writes the name of the subject on every one of them and changes
    no other key. So [is_free] depends on the table inside the interval only
    and reads the start, [fill] writes the start and writes nothing outside
    the interval. Hence a slot that begins where another one ends never
    conflicts with it: filling either one leaves the freeness of the other
    unchanged, and when both are free both are written in the same table. *)
Theorem slot_is_half_open (g : gmap Z string) (s1 s2 : Subject) (a b c : Z) :
  (is_free g (a, b) = Ok true ↔
   ∀ t, a ≤ t < b → (t - a) `mod` 5 = 0 → g !! t = Some ""%string) ∧
  (is_free g (a, b) = Ok false →
   ∃ t v, a ≤ t < b ∧ (t - a) `mod` 5 = 0 ∧ g !! t = Some v ∧ v ≠ ""%string) ∧
  (∀ t, fill g s1 (a, b) !! t =
        if decide (a ≤ t < b ∧ (t - a) `mod` 5 = 0)
        then Some (name s1) else g !! t) ∧
  (∀ g', (∀ t, a ≤ t < b → g' !! t = g !! t) →
         is_free g' (a, b) = is_free g (a, b)) ∧
  (∀ t, ¬ a ≤ t < b → fill g s1 (a, b) !! t = g !! t) ∧
  (a < b → fill g s1 (a, b) !! a = Some (name s1)) ∧
  (a < b → ∀ v, g !! a = Some v → v ≠ ""%string →
           is_free g (a, b) = Ok false) ∧
  is_free (fill g s1 (a, b)) (b, c) = is_free g (b, c) ∧
  is_free (fill g s2 (b, c)) (a, b) = is_free g (a, b) ∧
  (is_free g (a, b) = Ok true → is_free g (b, c) = Ok true →
   is_free (fill g s1 (a, b)) (b, c) = Ok true ∧
   ∀ t, (on_tick (a, b) t →
           fill (fill g s1 (a, b)) s2 (b, c) !! t = Some (name s1)) ∧
        (on_tick (b, c) t →
           fill (fill g s1 (a, b)) s2 (b, c) !! t = Some (name s2))).
Proof.
  assert (∀ s t, ¬ a ≤ t < b → fill g s (a, b) !! t = g !! t) as Hout_ab.
  { intros s t Ht. rewrite fill_lookup. case_decide as Hon; [|done].
    destruct Hon as [Hon _]. simpl in Hon. lia. }
  assert (∀ s t, ¬ b ≤ t < c → fill g s (b, c) !! t = g !! t) as Hout_bc.
  { intros s t Ht. rewrite fill_lookup. case_decide as Hon; [|done].
    destruct Hon as [Hon _]. simpl in Hon. lia. }
  assert (is_free (fill g s1 (a, b)) (b, c) = is_free g (b, c)) as Hbc.
  { apply is_free_loop_ext. simpl. intros t Ht. apply Hout_ab. lia. }
  split_and!.
  - rewrite is_free_true. unfold on_tick. simpl. split.
    + intros Hall t Ht Hmod. by apply Hall.
    + intros Hall t [Ht Hmod]. by apply Hall.
  - intros Hfalse.
    destruct (is_free_false _ _ Hfalse) as (t & v & [Ht Hmod] & Hv & Hne).
    by exists t, v.
  - intros t. apply (fill_lookup g s1 (a, b) t).
  - intros g' Hg'. by apply is_free_loop_ext.
  - apply Hout_ab.
  - intros Hab. rewrite fill_lookup. rewrite decide_True; [done|].
    apply on_tick_step; auto.
  - intros Hab v Hv Hne. unfold is_free. simpl.
    destruct (Z.to_nat (b - a)) as [|n] eqn:Hn; [lia|]. simpl.
    rewrite bool_decide_eq_true_2 by done. rewrite Hv.
    apply truthy_true in Hne. by rewrite Hne.
  - done.
  - apply is_free_loop_ext. simpl. intros t Ht. apply Hout_bc. lia.
  - intros Hfree_ab Hfree_bc. split; [by rewrite Hbc|].
    intros t. split; intros Hon; rewrite fill_lookup.
    + rewrite decide_False.
      * rewrite fill_lookup. by rewrite decide_True.
      * intros [Hon' _]. destruct Hon as [Hon _]. simpl in *. lia.
    + by rewrite decide_True.
Qed.

Lemma slot_is_half_open_witness :
  is_free (fill empty_schedule demo_lecture (hour 0 8)) (hour 0 9) = Ok true.
Proof.
  destruct (slot_is_half_open empty_schedule demo_lecture demo_exercise
              (datetime day0 8 0) (datetime day0 9 0) (datetime day0 10 0))
    as (_ & _ & _ & _ & _ & _ & _ & _ & _ & Hboth).
  destruct Hboth as [Hfree _]; [reflexivity..|]. exact Hfree.
Defined.

(** ** The cursor *)

(** C9. On a cursor over a non-empty list of tuples that stands on the last
    entry, [advance] raises the end flag and does not move: the position and
    the tuple read are the same before and after. [reset_end_status] then
    lowers the flag, again without moving, which gives back the cursor as it
    was when its flag was down. *)
Theorem advance_at_last_entry (self : Allocation) :
  __array self ≠ [] →
  index self = (length (__array self) - 1)%nat →
  has_reached_end (advance self) = true ∧
  index (advance self) = index self ∧
  __array (advance self) = __array self ∧
  (∃ booltuple, get_array self = Ok booltuple ∧
                get_array (advance self) = Ok booltuple ∧
                get_array (reset_end_status (advance self)) = Ok booltuple) ∧
  has_reached_end (reset_end_status (advance self)) = false ∧
  index (reset_end_status (advance self)) = index self ∧
  (has_reached_end self = false → reset_end_status (advance self) = self).
Proof.
  intros Hne Hlast. destruct self as [i e arr]. simpl in *.
  assert (0 < length arr)%nat by (destruct arr; [done|simpl; lia]).
  unfold advance, get_array, reset_end_status. simpl.
  rewrite bool_decide_eq_false_2 by lia. simpl. split_and!; try done.
  - destruct (lookup_lt_is_Some_2 arr i) as [v Hv]; [lia|].
    exists v. unfold getitem. by rewrite Hv.
  - by intros ->.
Qed.

Lemma advance_at_last_entry_witness :
  has_reached_end (advance (mkAllocation 1 false [[true; false]; [false; true]]))
    = true ∧
  index (advance (mkAllocation 1 false [[true; false]; [false; true]])) = 1%nat.
Proof.
  pose proof (advance_at_last_entry
                (mkAllocation 1 false [[true; false]; [false; true]])) as H.
  simpl in H. destruct H as (H1 & H2 & _); [done|reflexivity|].
  split; [exact H1|exact H2].
Defined.

(** ** The valid tuples of a subject *)

Section product.
Context {A : Type}.

Lemma elem_of_extend (result : list (list A)) (pool : list A) (v : list A) :
  v ∈ extend result pool ↔ ∃ x y, x ∈ result ∧ y ∈ pool ∧ v = x ++ [y].
Proof.
  unfold extend. rewrite list_elem_of_bind. split.
  - intros (x & (y & Hv%list_elem_of_singleton & Hy)%list_elem_of_bind & Hx).
    by exists x, y.
  - intros (x & y & Hx & Hy & ->). exists x. split; [|done].
    apply list_elem_of_bind. exists y. by rewrite list_elem_of_singleton.
Qed.

Lemma NoDup_extend (result : list (list A)) (pool : list A) :
  NoDup result → NoDup pool → NoDup (extend result pool).
Proof.
  intros Hresult Hpool. apply NoDup_bind; [| |done].
  - intros x1 x2 v _ _.
    intros (y1 & ->%list_elem_of_singleton & _)%list_elem_of_bind.
    intros (y2 & Heq%list_elem_of_singleton & _)%list_elem_of_bind.
    by apply app_inj_tail in Heq as [-> _].
  - intros x _. apply NoDup_bind; [| |done].
    + intros y1 y2 v _ _ ->%list_elem_of_singleton.
      intros Heq%list_elem_of_singleton.
      by apply app_inj_tail in Heq as [_ ->].
    + intros y _. apply NoDup_singleton.
Qed.

Lemma elem_of_product_from (result : list (list A)) (pool : list A)
    (n : nat) (v : list A) :
  v ∈ foldl extend result (replicate n pool) ↔
  ∃ x w, x ∈ result ∧ length w = n ∧ Forall (.∈ pool) w ∧ v = x ++ w.
Proof.
  revert result. induction n as [|n IH]; intros result; simpl.
  - split.
    + intros Hv. exists v, []. by rewrite app_nil_r.
    + intros (x & w & Hx & ->%nil_length_inv & _ & ->).
      by rewrite app_nil_r.
  - rewrite IH. split.
    + intros (x' & w & (x & y & Hx & Hy & ->)%elem_of_extend & Hw & Hin & ->).
      exists x, (y :: w). rewrite <-(assoc_L (++)). simpl.
      split_and!; auto.
    + intros (x & [|y w] & Hx & Hw & Hin & ->); [done|].
      apply Forall_cons in Hin as [Hy Hin].
      exists (x ++ [y]), w. rewrite <-(assoc_L (++)). simpl.
      split_and!; auto. apply elem_of_extend. by exists x, y.
Qed.

Lemma NoDup_product_from (result : list (list A)) (pool : list A) (n : nat) :
  NoDup result → NoDup pool →
  NoDup (foldl extend result (replicate n pool)).
Proof.
  revert result. induction n as [|n IH]; intros result ??; simpl; [done|].
  apply IH; [|done]. by apply NoDup_extend.
Qed.
End product.

Lemma elem_of_product_bool (n : nat) (v : list bool) :
  v ∈ product (replicate n [true; false]) ↔ length v = n.
Proof.
  unfold product. rewrite elem_of_product_from. split.
  - by intros (x & w & ->%list_elem_of_singleton & Hw & _ & ->).
  - intros Hv. exists [], v. split_and!; [by left|done| |done].
    apply Forall_forall. intros [] _; [left|right; left].
Qed.

Lemma NoDup_product_bool (n : nat) :
  NoDup (product (replicate n [true; false])).
Proof.
  apply (NoDup_product_from [[]] [true; false] n).
  - apply NoDup_singleton.
  - apply NoDup_cons. split; [|apply NoDup_singleton].
    by intros ?%list_elem_of_singleton.
Qed.

Lemma sum_nonneg (v : list bool) : 0 ≤ sum v.
Proof. induction v as [|[] v IH]; simpl; lia. Qed.

Lemma sum_zero (v : list bool) : sum v = 0 ↔ ∀ k, v !! k ≠ Some true.
Proof.
  induction v as [|b v IH]; simpl.
  - split; [|done]. by intros _ k.
  - pose proof (sum_nonneg v). destruct b.
    + split; [lia|]. intros Hall. by destruct (Hall 0%nat).
    + rewrite Z.add_0_l, IH. split.
      * intros Hall [|k]; [done|apply Hall].
      * intros Hall k. apply (Hall (S k)).
Qed.

(** [sum booltuple == 1]: exactly one entry is [True]. *)
Lemma sum_one (v : list bool) :
  sum v = 1 ↔ ∃ j, v !! j = Some true ∧ ∀ k, v !! k = Some true → k = j.
Proof.
  induction v as [|b v IH]; simpl.
  - split; [done|]. by intros (j & Hj & _).
  - destruct b.
    + assert (1 + sum v = 1 ↔ sum v = 0) as -> by lia. rewrite sum_zero. split.
      * intros Hall. exists 0%nat. split; [done|].
        intros [|k] Hk; [done|]. by destruct (Hall k).
      * intros (j & Hj & Huniq) k Hk.
        pose proof (Huniq (S k) Hk). pose proof (Huniq 0%nat eq_refl). lia.
    + rewrite Z.add_0_l, IH. split.
      * intros (j & Hj & Huniq). exists (S j). split; [done|].
        intros [|k] Hk; [done|]. f_equal. by apply Huniq.
      * intros ([|j] & Hj & Huniq); [done|]. exists j. split; [done|].
        intros k Hk. specialize (Huniq (S k) Hk). lia.
Qed.

(** [any(booltuple)]: some entry is [True]. *)
Lemma any_true (v : list bool) : any v = true ↔ ∃ j, v !! j = Some true.
Proof.
  unfold any. induction v as [|b v IH]; simpl.
  - split; [done|]. by intros (j & Hj).
  - destruct b; simpl.
    + split; [|done]. intros _. by exists 0%nat.
    + rewrite IH. split.
      * intros (j & Hj). by exists (S j).
      * intros ([|j] & Hj); [done|]. by exists j.
Qed.

Lemma elem_of_Allocation_init (subject : Subject) (v : list bool) :
  v ∈ __array (Allocation_init subject) ↔ valid_vector subject v.
Proof.
  unfold Allocation_init, valid_vector. simpl.
  destruct (type subject); rewrite list_elem_of_filter, elem_of_product_bool.
  - rewrite sum_one. tauto.
  - rewrite any_true. tauto.
Qed.

(** C8. For a subject with n slots the tuples of its cursor are, without
    repetition, exactly the boolean n-tuples valid for its kind: those with
    exactly one true entry for a UE subject, those with at least one true
    entry for a VO subject, the all-true tuple among them. The list is the
    value of a function of the subject, so its order is the same in every
    run. *)
Theorem Allocation_init_valid_vectors (subject : Subject) :
  index (Allocation_init subject) = 0%nat ∧
  has_reached_end (Allocation_init subject) = false ∧
  NoDup (__array (Allocation_init subject)) ∧
  (∀ v, v ∈ __array (Allocation_init subject) ↔ valid_vector subject v) ∧
  (type subject = VO → times subject ≠ [] →
   replicate (length (times subject)) true ∈ __array (Allocation_init subject)).
Proof.
  split_and!; [done|done| |apply elem_of_Allocation_init|].
  - unfold Allocation_init. simpl.
    destruct (type subject); apply NoDup_filter, NoDup_product_bool.
  - intros Hvo Hne. apply elem_of_Allocation_init. unfold valid_vector.
    rewrite length_replicate, Hvo. split; [done|]. exists 0%nat.
    destruct (times subject); [done|]. done.
Qed.

(** ** Materialization as a sequence of allocations *)

Lemma first_pass_slot_step allocations i j st st' :
  first_pass_slot allocations i j st = Ok st' →
  st' = st ∨ step allocations st st'.
Proof.
  unfold first_pass_slot. destruct st as [subjects newsched].
  intros (allocation & Ha%getitem_Ok & H)%bind_Ok.
  apply bind_Ok in H as (booltuple & Hb & H).
  apply bind_Ok in H as ([] & Hsel%getitem_Ok & H);
    [|left; by injection H as <-].
  apply bind_Ok in H as (subject & Hs%getitem_Ok & H).
  apply bind_Ok in H as (selected_time & Ht%getitem_Ok & H).
  apply bind_Ok in H as ([] & Hfree & H); injection H as <-; [right|by left].
  by eapply step_first.
Qed.

Lemma first_pass_steps allocations st st' :
  first_pass allocations st = Ok st' → rtc (step allocations) st st'.
Proof.
  unfold first_pass.
  apply (for_each_invariant (rtc (step allocations) st)); [|done].
  intros i st1 st2 _ Hst1. unfold first_pass_subject.
  intros (subject & _ & Hloop)%bind_Ok. revert Hloop.
  apply (for_each_invariant (rtc (step allocations) st)); [|done].
  intros j st3 st4 _ Hst3 [->|Hstep]%first_pass_slot_step; [done|].
  by eapply rtc_r.
Qed.

Lemma second_pass_slot_step allocations i selected_time st st' :
  (∀ subject, st.1 !! i = Some subject →
              type subject = VO ∧ selected_time ∈ times subject) →
  second_pass_slot i selected_time st = Ok st' →
  st' = st ∨ step allocations st st'.
Proof.
  unfold second_pass_slot. destruct st as [subjects newsched]. simpl.
  intros Hvo (subject & Hs%getitem_Ok & H)%bind_Ok.
  case_bool_decide as Hnotin; [|left; by injection H as <-].
  apply bind_Ok in H as ([] & Hfree & H); injection H as <-; [right|by left].
  destruct (Hvo subject Hs). by eapply step_second.
Qed.

(** A step leaves the name, the type and the times of every subject alone. *)
Lemma step_static allocations st st' :
  step allocations st st' → reset <$> st'.1 = reset <$> st.1.
Proof.
  intros Hstep. destruct Hstep; simpl; rewrite list_fmap_insert;
    by apply list_insert_id; rewrite list_lookup_fmap;
    match goal with H : _ !! _ = Some _ |- _ => rewrite H end.
Qed.

Lemma steps_static allocations st st' :
  rtc (step allocations) st st' → reset <$> st'.1 = reset <$> st.1.
Proof.
  induction 1 as [|st1 st2 st3 Hstep _ IH]; [done|].
  rewrite IH. by eapply step_static.
Qed.

Lemma static_lookup (l l' : list Subject) (k : nat) (s' : Subject) :
  reset <$> l' = reset <$> l → l' !! k = Some s' →
  ∃ s, l !! k = Some s ∧ name s = name s' ∧ type s = type s' ∧
       times s = times s'.
Proof.
  intros Heq Hk. apply (f_equal (.!! k)) in Heq.
  rewrite !list_lookup_fmap, Hk in Heq. simpl in Heq.
  destruct (l !! k) as [s|]; [|done]. injection Heq as ???. by exists s.
Qed.

Lemma second_pass_steps allocations st st' :
  second_pass st = Ok st' → rtc (step allocations) st st'.
Proof.
  unfold second_pass.
  apply (for_each_invariant (rtc (step allocations) st)); [|done].
  intros i st1 st2 _ Hst1. unfold second_pass_subject.
  intros (subject & Hs%getitem_Ok & Hloop)%bind_Ok.
  destruct (type subject) eqn:Htype; [by injection Hloop as <-|].
  cut (rtc (step allocations) st1 st2); [by etrans|]. revert Hloop.
  pose (P := λ st3 : list Subject * gmap Z string,
               rtc (step allocations) st1 st3).
  apply (for_each_invariant P); subst P; simpl; [|done].
  intros selected_time st3 st4 Hin Hst3 Hbody.
  eapply (second_pass_slot_step allocations) in Hbody as [->|Hstep];
    [done|by eapply rtc_r|].
  intros subject3 Hs3.
  apply (static_lookup st1.1) in Hs3 as (s & Hs' & _ & <- & <-);
    [|by eapply steps_static].
  rewrite Hs in Hs'. by injection Hs' as <-.
Qed.

Lemma materialize_steps subjects allocations st' :
  materialize subjects allocations = Ok st' →
  rtc (step allocations) (subjects, empty_schedule) st'.
Proof.
  unfold materialize. intros (st & H1 & H2)%bind_Ok.
  etrans; [by apply first_pass_steps|by apply second_pass_steps].
Qed.

(** What the two kinds of step have in common. *)
Lemma step_inv allocations st st' :
  step allocations st st' →
  ∃ i subject selected_time,
    st.1 !! i = Some subject ∧ selected_time ∈ times subject ∧
    is_free st.2 selected_time = Ok true ∧
    st' = (<[i := mark_allocated subject selected_time]> st.1,
           fill st.2 subject selected_time).
Proof.
  intros Hstep. destruct Hstep; simpl; eexists _, _, _; split_and!; eauto.
  by eapply list_elem_of_lookup_2.
Qed.

(** A filled instant is never written again: [fill] is only reached for a
    slot all of whose instants hold the empty string. *)
Lemma step_keeps_written allocations st st' (t : Z) (v : string) :
  step allocations st st' →
  st.2 !! t = Some v → v ≠ ""%string → st'.2 !! t = Some v.
Proof.
  intros (i & subject & selected_time & _ & _ & Hfree & ->)%step_inv Hv Hne.
  simpl. rewrite fill_lookup. case_decide as Hon; [|done].
  rewrite is_free_true in Hfree. rewrite (Hfree t Hon) in Hv. congruence.
Qed.

(** No key of the table is lost. *)
Lemma step_keeps_keys allocations st st' (t : Z) :
  step allocations st st' → is_Some (st.2 !! t) → is_Some (st'.2 !! t).
Proof.
  intros (i & subject & selected_time & _ & _ & _ & ->)%step_inv Hv.
  simpl. rewrite fill_lookup. by case_decide.
Qed.

Lemma lookup_insert_marked (subjects : list Subject) (i k : nat)
    (subject s : Subject) (selected_time : Z * Z) :
  subjects !! i = Some subject →
  <[i := mark_allocated subject selected_time]> subjects !! k = Some s →
  (k = i ∧ s = mark_allocated subject selected_time) ∨
  (k ≠ i ∧ subjects !! k = Some s).
Proof.
  intros Hi Hk. destruct (decide (k = i)) as [->|Hne].
  - left. rewrite list_lookup_insert_eq in Hk by by eapply lookup_lt_Some.
    by injection Hk as <-.
  - right. by rewrite list_lookup_insert_ne in Hk.
Qed.

Lemma step_allocated_within allocations st st' :
  step allocations st st' → allocated_within st.1 → allocated_within st'.1.
Proof.
  intros (i & subject & selected_time & Hi & Hin & _ & ->)%step_inv Hinv.
  simpl. intros k s slot Hk Hslot.
  destruct (lookup_insert_marked _ _ _ _ _ _ Hi Hk) as [[-> ->]|[_ Hk']];
    [|by eapply Hinv].
  simpl in *. apply elem_of_union in Hslot as [->%elem_of_singleton|Hslot];
    [done|by eapply Hinv].
Qed.

Lemma step_names_on_ticks allocations st st' :
  Forall (λ s, name s ≠ ""%string) st.1 →
  step allocations st st' → names_on_ticks st → names_on_ticks st'.
Proof.
  intros Hnames (i & subject & selected_time & Hi & _ & Hfree & ->)%step_inv.
  intros Hinv k s slot t Hk Hslot Hon. simpl in *.
  rewrite is_free_true in Hfree. rewrite fill_lookup.
  assert (∀ s0, st.1 !! k = Some s0 → slot ∈ allocated_times s0 →
                ¬ on_tick selected_time t ∧ st.2 !! t = Some (name s0))
    as Hold.
  { intros s0 Hk0 Hslot0. pose proof (Hinv k s0 slot t Hk0 Hslot0 Hon) as Ht.
    split; [|done]. intros Hon'. rewrite (Hfree t Hon') in Ht.
    rewrite Forall_forall in Hnames.
    apply (Hnames s0); [by eapply list_elem_of_lookup_2|congruence]. }
  destruct (lookup_insert_marked _ _ _ _ _ _ Hi Hk) as [[-> ->]|[_ Hk']].
  - simpl in *.
    apply elem_of_union in Hslot as [->%elem_of_singleton|Hslot].
    + by rewrite decide_True.
    + destruct (Hold subject Hi Hslot) as [Hoff ->]. by rewrite decide_False.
  - destruct (Hold s Hk' Hslot) as [Hoff ->]. by rewrite decide_False.
Qed.

Lemma static_names (l l' : list Subject) :
  reset <$> l' = reset <$> l →
  Forall (λ s, name s ≠ ""%string) l → Forall (λ s, name s ≠ ""%string) l'.
Proof.
  intros Heq Hl. apply Forall_lookup. intros k s' Hk.
  destruct (static_lookup l l' k s' Heq Hk) as (s & Hs & <- & _).
  rewrite Forall_lookup in Hl. by eapply Hl.
Qed.

(** The invariants, from the start of [create_schedule] to the end of its
    second pass. *)
Lemma steps_invariants allocations st st' :
  rtc (step allocations) st st' →
  (allocated_within st.1 → allocated_within st'.1) ∧
  (Forall (λ s, name s ≠ ""%string) st.1 →
   names_on_ticks st → names_on_ticks st') ∧
  (∀ t, is_Some (st.2 !! t) → is_Some (st'.2 !! t)) ∧
  (∀ t v, st.2 !! t = Some v → v ≠ ""%string → st'.2 !! t = Some v).
Proof.
  induction 1 as [|st1 st2 st3 Hstep Hrest IH]; [done|].
  destruct IH as (IH1 & IH2 & IH3 & IH4). split_and!.
  - intros. by eapply IH1, step_allocated_within.
  - intros Hnames Hinv. apply IH2; [|by eapply step_names_on_ticks].
    eapply static_names; [by eapply step_static|done].
  - intros. by eapply IH3, step_keeps_keys.
  - intros t v Hv Hne. apply IH4; [|done]. by eapply step_keeps_written.
Qed.

(** ** Classification *)

Lemma is_partially_complete_false (s : Subject) :
  is_partially_complete s = false ↔ allocated_times s = ∅.
Proof.
  unfold is_partially_complete. rewrite bool_decide_eq_false. split.
  - intros Hsize. apply leibniz_equiv, size_empty_iff. lia.
  - intros ->. rewrite size_empty. lia.
Qed.

Lemma is_partially_complete_true (s : Subject) :
  is_partially_complete s = true ↔ allocated_times s ≠ ∅.
Proof.
  rewrite <-is_partially_complete_false. by destruct (is_partially_complete s).
Qed.

(** Only a VO subject can be allocated without being complete. *)
Lemma is_complete_false (s : Subject) :
  is_partially_complete s = true →
  is_complete s = false ↔
  type s = VO ∧ allocated_times s ≠ list_to_set (times s).
Proof.
  unfold is_complete, is_partially_complete. intros Hpart.
  destruct (type s).
  - rewrite Hpart. split; [done|]. by intros [? _].
  - rewrite bool_decide_eq_false. tauto.
Qed.

Lemma classify_subject_flags (s : Subject) (flags : bool * bool) :
  ((classify_subject flags s).2 = true ↔
   flags.2 = true ∨ allocated_times s = ∅) ∧
  ((classify_subject flags s).1 = true ↔
   flags.1 = true ∨
   (allocated_times s ≠ ∅ ∧ type s = VO ∧
    allocated_times s ≠ list_to_set (times s))).
Proof.
  unfold classify_subject.
  destruct (is_partially_complete s) eqn:Hpart; simpl.
  - pose proof (is_complete_false s Hpart) as Hcompl.
    apply is_partially_complete_true in Hpart.
    destruct (is_complete s); simpl.
    + split; [tauto|]. split; [tauto|]. intros [?|(_ & Hvo)]; [done|].
      by apply Hcompl in Hvo.
    + split; [tauto|]. split; [|done]. intros _. right. tauto.
  - apply is_partially_complete_false in Hpart. tauto.
Qed.

Lemma classify_flags (l : list Subject) (flags : bool * bool) :
  ((foldl classify_subject flags l).2 = true ↔
   flags.2 = true ∨ ∃ s, s ∈ l ∧ allocated_times s = ∅) ∧
  ((foldl classify_subject flags l).1 = true ↔
   flags.1 = true ∨
   ∃ s, s ∈ l ∧ allocated_times s ≠ ∅ ∧ type s = VO ∧
        allocated_times s ≠ list_to_set (times s)).
Proof.
  revert flags. induction l as [|s l IH]; intros flags; simpl.
  - split; (split; [by left|]); by intros [?|(s & ?%elem_of_nil & _)].
  - destruct (IH (classify_subject flags s)) as [IH2 IH1].
    destruct (classify_subject_flags s flags) as [Hs2 Hs1].
    rewrite IH2, IH1, Hs2, Hs1. clear. split; split.
    + intros [[?|?]|(s' & ? & ?)]; [by left|right..].
      * exists s. split; [by left|done].
      * exists s'. split; [by right|done].
    + intros [?|(s' & [->|?]%elem_of_cons & ?)]; [by left; left|by left; right|].
      right. by exists s'.
    + intros [[?|?]|(s' & ? & ?)]; [by left|right..].
      * exists s. split; [by left|done].
      * exists s'. split; [by right|done].
    + intros [?|(s' & [->|?]%elem_of_cons & ?)]; [by left; left|by left; right|].
      right. by exists s'.
Qed.

Lemma create_schedule_Ok subjects allocations subjects'' schedule :
  create_schedule subjects allocations = Ok (subjects'', schedule) ↔
  ∃ subjects' newsched,
    materialize subjects allocations = Ok (subjects', newsched) ∧
    subjects'' = reset <$> subjects' ∧
    schedule =
      mkSchedule
        (if (foldl classify_subject (false, false) subjects').2
         then None else Some newsched)
        (foldl classify_subject (false, false) subjects').1.
Proof.
  unfold create_schedule. rewrite bind_Ok. split.
  - intros ([subjects' newsched] & Hmat & [= <- <-]). by exists subjects', newsched.
  - intros (subjects' & newsched & Hmat & -> & ->).
    by exists (subjects', newsched).
Qed.

Lemma reset_id (l : list Subject) :
  Forall (λ s, allocated_times s = ∅) l → reset <$> l = l.
Proof.
  induction 1 as [|s l Hs _ IH]; [done|]. rewrite fmap_cons, IH. f_equal.
  destruct s. unfold reset. simpl in *. by rewrite Hs.
Qed.

(** The first key of the week, [datetime(year, month, day0, 8, 0)]. *)
Lemma empty_schedule_first_key :
  empty_schedule !! datetime day0 start_of_day 0 = Some ""%string.
Proof. vm_compute. reflexivity. Qed.

Lemma materialize_facts subjects allocations subjects' newsched :
  materialize subjects allocations = Ok (subjects', newsched) →
  reset <$> subjects' = reset <$> subjects ∧
  newsched ≠ ∅ ∧
  (Forall (λ s, allocated_times s = ∅) subjects →
   allocated_within subjects' ∧
   (Forall (λ s, name s ≠ ""%string) subjects →
    names_on_ticks (subjects', newsched))).
Proof.
  intros Hsteps%materialize_steps.
  destruct (steps_invariants _ _ _ Hsteps) as (Hwithin & Hticks & Hkeys & _).
  simpl in *. split_and!.
  - by apply steps_static in Hsteps.
  - intros ->.
    destruct (Hkeys (datetime day0 start_of_day 0)) as [v Hv];
      [by rewrite empty_schedule_first_key|by rewrite lookup_empty in Hv].
  - intros Hreset. rewrite Forall_lookup in Hreset. split.
    + apply Hwithin. intros k s slot Hk Hslot.
      rewrite (Hreset k s Hk) in Hslot. by apply not_elem_of_empty in Hslot.
    + intros Hnames. apply Hticks; [done|]. intros k s slot t Hk Hslot. simpl in *.
      rewrite (Hreset k s Hk) in Hslot. by apply not_elem_of_empty in Hslot.
Qed.

(** ** The result store *)

Lemma existsb_Schedule_eq (schedule : Schedule) (saved : list Schedule) :
  existsb (Schedule_eq schedule) saved = true ↔
  ∃ element, element ∈ saved ∧ table element = table schedule.
Proof.
  induction saved as [|element saved IH]; simpl.
  - split; [done|]. by intros (element & ?%elem_of_nil & _).
  - rewrite orb_true_iff, IH. unfold Schedule_eq.
    rewrite bool_decide_eq_true. split.
    + intros [Heq|(element' & Hin & Heq)].
      * exists element. split; [by left|done].
      * exists element'. split; [by right|done].
    + intros (element' & [->|Hin]%elem_of_cons & Heq); [by left|right].
      by exists element'.
Qed.

Lemma evaluate_Ok (st st' : State) :
  evaluate st = Ok st' ↔
  ∃ subjects' schedule,
    create_schedule (subjects st) (allocations st) = Ok (subjects', schedule) ∧
    st' =
      let duplicate := existsb (Schedule_eq schedule) (saved_schedules st) in
      let duplicates' :=
        if duplicate then S (duplicates st) else duplicates st in
      if negb duplicate && negb (table_is_false schedule) then
        mkState subjects' (allocations st) (permutations st)
                (saved_schedules st ++ [schedule]) duplicates'
                (S (version st))
      else
        mkState subjects' (allocations st) (permutations st)
                (saved_schedules st) duplicates' (version st).
Proof.
  unfold evaluate. rewrite bind_Ok. split.
  - intros ([subjects' schedule] & Hcreate & Hst'). exists subjects', schedule.
    split; [done|]. simpl.
    destruct (negb _ && negb _); by injection Hst' as <-.
  - intros (subjects' & schedule & Hcreate & ->). exists (subjects', schedule).
    split; [done|]. simpl. by destruct (negb _ && negb _).
Qed.

(** Invariant rule of the traversal: a property of the state kept by the
    three cursor methods, by the memo set and by the evaluation of a
    combination holds when [percolate] returns. *)
Lemma percolate_invariant (P : State → Prop) :
  (∀ st i f, f = advance ∨ f = reverse ∨ f = reset_end_status →
             P st → P (call_on f i st)) →
  (∀ st p, P st → P (add_permutation st p)) →
  (∀ st st', P st → evaluate st = Ok st' → P st') →
  ∀ limit st st', P st → percolate limit st = Ok st' → P st'.
Proof.
  intros Hcall Hadd Heval limit.
  induction limit as [|limit IH]; intros st st' Hst; simpl; [done|].
  destruct (list_find _ _) as [[i a]|].
  { intros [= <-]. apply Hcall; auto. }
  intros (perm_check & _ & Hrun)%bind_Ok.
  case_bool_decide; [by injection Hrun as <-|].
  apply bind_Ok in Hrun as (st1 & Hst1 & Hloop). revert Hloop.
  apply for_each_invariant; [|by eapply Heval; [apply Hadd|]].
  intros i st2 st3 _ Hst2 (st4 & Hrec & [= <-])%bind_Ok.
  apply Hcall; [auto|]. eapply IH; [|done]. apply Hcall; auto.
Qed.

(** C5. A materialized candidate has exactly one of three outcomes. If some
    subject has no allocated slot, the candidate is dropped: its table is
    [None], it is not saved and it is not counted as a duplicate. Otherwise,
    if the allocated slots of some VO subject are a proper subset of its
    times, the candidate keeps its table and is marked incomplete. Otherwise
    it keeps its table and is not marked. *)
Theorem candidate_classification (st : State) (subjects' : list Subject)
    (newsched : gmap Z string) :
  Forall (λ s, allocated_times s = ∅) (subjects st) →
  Forall (λ element, table element ≠ None) (saved_schedules st) →
  materialize (subjects st) (allocations st) = Ok (subjects', newsched) →
  ∃ schedule st',
    create_schedule (subjects st) (allocations st)
      = Ok (reset <$> subjects', schedule) ∧
    evaluate st = Ok st' ∧
    (((∃ s, s ∈ subjects' ∧ allocated_times s = ∅) ∧
      table schedule = None ∧
      saved_schedules st' = saved_schedules st ∧
      duplicates st' = duplicates st ∧ version st' = version st)
     ∨
     ((∀ s, s ∈ subjects' → allocated_times s ≠ ∅) ∧
      (∃ s, s ∈ subjects' ∧ type s = VO ∧
            allocated_times s ⊂ list_to_set (times s)) ∧
      table schedule = Some newsched ∧ is_incomplete schedule = true)
     ∨
     ((∀ s, s ∈ subjects' → allocated_times s ≠ ∅) ∧
      (∀ s, s ∈ subjects' → type s = VO →
            allocated_times s = list_to_set (times s)) ∧
      table schedule = Some newsched ∧ is_incomplete schedule = false)).
Proof.
  intros Hreset Hsaved Hmat.
  destruct (materialize_facts _ _ _ _ Hmat) as (_ & _ & Hwithin).
  destruct (Hwithin Hreset) as [Hsub _]. clear Hwithin.
  destruct (classify_flags subjects' (false, false)) as [Hfail Hinc].
  simpl in *.
  eexists _, _. split; [apply create_schedule_Ok; by eexists _, _|].
  split; [apply evaluate_Ok; eexists _, _; split;
          [apply create_schedule_Ok; by eexists _, _|done]|].
  simpl. destruct (foldl classify_subject (false, false) subjects').2 eqn:Hf.
  - left. destruct Hfail as [[Hfalse|Hempty] _]; [done|done|].
    assert (existsb (Schedule_eq (mkSchedule None
              (foldl classify_subject (false, false) subjects').1))
              (saved_schedules st) = false) as ->.
    { apply not_true_is_false.
      intros (element & Hin & Heq)%existsb_Schedule_eq.
      rewrite Forall_forall in Hsaved. by apply (Hsaved element). }
    done.
  - right.
    assert (∀ s, s ∈ subjects' → allocated_times s ≠ ∅) as Hnonempty.
    { intros s Hs Hempty. destruct Hfail as [_ Hfail].
      discriminate Hfail. right. by exists s. }
    destruct (foldl classify_subject (false, false) subjects').1 eqn:Hi.
    + left. destruct Hinc as [[Hfalse|(s & Hs & _ & Hvo & Hne)] _];
        [done|done|].
      split_and!; [done| |done..]. exists s. split_and!; [done..|].
      apply list_elem_of_lookup in Hs as [k Hk].
      split.
      * intros slot Hslot. apply elem_of_list_to_set. by eapply Hsub.
      * intros Hsup. apply Hne. apply set_eq. intros slot. split.
        -- intros Hslot. apply elem_of_list_to_set. by eapply Hsub.
        -- apply Hsup.
    + right. split_and!; [done| |done..]. intros s Hs Hvo.
      destruct (decide (allocated_times s = list_to_set (times s)))
        as [|Hne]; [done|].
      destruct Hinc as [_ Hinc]. discriminate Hinc. right. exists s.
      split_and!; auto.
Qed.

Lemma candidate_classification_witness :
  ∃ st', evaluate (initial_state [demo_lecture]) = Ok st'.
Proof.
  destruct (candidate_classification (initial_state [demo_lecture])
              [mark_allocated (mark_allocated demo_lecture (480, 570))
                              (1920, 2010)]
              (fill (fill empty_schedule demo_lecture (480, 570))
                    demo_lecture (1920, 2010)))
    as (schedule & st' & _ & Heval & _).
  - repeat constructor.
  - constructor.
  - reflexivity.
  - exists st'. exact Heval.
Defined.

(** What [evaluate] does to the store and to the two counters. *)
Lemma evaluate_store (st st' : State) :
  evaluate st = Ok st' →
  ∃ subjects' schedule,
    create_schedule (subjects st) (allocations st) = Ok (subjects', schedule) ∧
    (((∃ element, element ∈ saved_schedules st ∧
                  table element = table schedule) ∧
      saved_schedules st' = saved_schedules st ∧
      duplicates st' = S (duplicates st) ∧ version st' = version st)
     ∨
     ((∀ element, element ∈ saved_schedules st →
                  table element ≠ table schedule) ∧
      table_is_false schedule = true ∧
      saved_schedules st' = saved_schedules st ∧
      duplicates st' = duplicates st ∧ version st' = version st)
     ∨
     ((∀ element, element ∈ saved_schedules st →
                  table element ≠ table schedule) ∧
      table_is_false schedule = false ∧
      saved_schedules st' = saved_schedules st ++ [schedule] ∧
      duplicates st' = duplicates st ∧ version st' = S (version st))).
Proof.
  intros (subjects' & schedule & Hcreate & ->)%evaluate_Ok.
  exists subjects', schedule. split; [done|]. simpl.
  destruct (existsb _ _) eqn:Hdup; simpl.
  - left. by apply existsb_Schedule_eq in Hdup.
  - right.
    assert (∀ element, element ∈ saved_schedules st →
                       table element ≠ table schedule) as Hnew.
    { intros element Hin Heq. apply not_true_iff_false in Hdup.
      apply Hdup, existsb_Schedule_eq. by exists element. }
    destruct (table_is_false schedule); simpl; [by left|by right].
Qed.

Lemma evaluate_store_distinct (st st' : State) :
  evaluate st = Ok st' →
  saved_schedules st `prefix_of` saved_schedules st' ∧
  (NoDup (table <$> saved_schedules st) →
   NoDup (table <$> saved_schedules st')) ∧
  (version st = length (saved_schedules st) →
   version st' = length (saved_schedules st')).
Proof.
  intros (subjects' & schedule & _ & Hcases)%evaluate_store.
  destruct Hcases as [(_ & -> & _ & ->)|[(_ & _ & -> & _ & ->)|
                      (Hnew & _ & -> & _ & ->)]]; [done..|].
  split_and!.
  - by apply prefix_app_r.
  - intros Hnodup. rewrite fmap_app. apply NoDup_app. split_and!; [done| |].
    + intros tbl (element & -> & Hin)%list_elem_of_fmap.
      intros Heq%list_elem_of_singleton. by apply (Hnew element).
    + apply NoDup_singleton.
  - intros ->. rewrite length_app. simpl. lia.
Qed.

Lemma percolate_store_distinct (limit : nat) (st st' : State) :
  percolate limit st = Ok st' →
  saved_schedules st `prefix_of` saved_schedules st' ∧
  (NoDup (table <$> saved_schedules st) →
   NoDup (table <$> saved_schedules st')) ∧
  (version st = length (saved_schedules st) →
   version st' = length (saved_schedules st')).
Proof.
  pose (P := λ st1,
          saved_schedules st `prefix_of` saved_schedules st1 ∧
          (NoDup (table <$> saved_schedules st) →
           NoDup (table <$> saved_schedules st1)) ∧
          (version st = length (saved_schedules st) →
           version st1 = length (saved_schedules st1))).
  apply (percolate_invariant P); subst P; simpl; [done..| |done].
  intros st1 st2 (Hpre & Hnodup & Hver) Heval.
  destruct (evaluate_store_distinct _ _ Heval) as (Hpre' & Hnodup' & Hver').
  split_and!; [by etrans|auto..].
Qed.

(** C6. A candidate that keeps its table is compared with the saved
    schedules. If its table equals the table of a saved one, the duplicate
    counter goes up by one and nothing is saved. Otherwise the candidate is
    appended to the saved schedules and the version counter goes up by one.
    Hence the saved schedules only grow at their end and their tables are
    pairwise distinct, after every evaluation and when the run returns. *)
Theorem result_store_distinct :
  (∀ st subjects' schedule newsched,
     create_schedule (subjects st) (allocations st)
       = Ok (subjects', schedule) →
     table schedule = Some newsched →
     ∃ st', evaluate st = Ok st' ∧
       ((∃ element, element ∈ saved_schedules st ∧
                    table element = Some newsched) →
        saved_schedules st' = saved_schedules st ∧
        duplicates st' = S (duplicates st) ∧ version st' = version st) ∧
       ((∀ element, element ∈ saved_schedules st →
                    table element ≠ Some newsched) →
        saved_schedules st' = saved_schedules st ++ [schedule] ∧
        duplicates st' = duplicates st ∧ version st' = S (version st)) ∧
       (NoDup (table <$> saved_schedules st) →
        NoDup (table <$> saved_schedules st'))) ∧
  (∀ limit st st',
     percolate limit st = Ok st' →
     saved_schedules st `prefix_of` saved_schedules st' ∧
     (NoDup (table <$> saved_schedules st) →
      NoDup (table <$> saved_schedules st'))) ∧
  (∀ limit subjects st,
     solve limit subjects = Ok st →
     NoDup (table <$> saved_schedules st) ∧
     version st = length (saved_schedules st)).
Proof.
  split_and!.
  - intros st subjects' schedule newsched Hcreate Htable.
    assert (table_is_false schedule = false) as Hfalse.
    { apply create_schedule_Ok in Hcreate as (s' & g & Hmat & _ & ->).
      apply materialize_facts in Hmat as (_ & Hne & _).
      unfold table_is_false. simpl in *. destruct (_.2); [done|].
      injection Htable as ->. by apply bool_decide_eq_false. }
    assert (∃ st', evaluate st = Ok st') as [st' Heval].
    { eexists. apply evaluate_Ok. by eexists _, _. }
    exists st'. split; [done|].
    destruct (evaluate_store_distinct _ _ Heval) as (_ & Hnodup & _).
    destruct (evaluate_store _ _ Heval) as (s' & schedule' & Hcreate' & Hcases).
    rewrite Hcreate in Hcreate'. injection Hcreate' as <- <-.
    rewrite Htable in Hcases. split_and!; [| |done].
    + intros (element & Hin & Heq).
      destruct Hcases as [(_ & ?)|[(Hnew & _)|(Hnew & _)]]; [done|..];
        by destruct (Hnew element).
    + intros Hnew.
      destruct Hcases as [((element & Hin & Heq) & _)|[(_ & Htrue & _)|
                          (_ & _ & ?)]]; [|congruence|done].
      by destruct (Hnew element).
  - intros limit st st' Hrun.
    destruct (percolate_store_distinct _ _ _ Hrun) as (? & ? & _). done.
  - intros limit subjects st Hrun.
    destruct (percolate_store_distinct _ _ _ Hrun) as (_ & Hnodup & Hver).
    split; [apply Hnodup; constructor|by apply Hver].
Qed.

Lemma result_store_distinct_witness :
  ∃ st, solve 10 [demo_lecture] = Ok st ∧
        NoDup (table <$> saved_schedules st) ∧
        version st = length (saved_schedules st).
Proof.
  destruct (returns_Ok (solve 10 [demo_lecture])) as [st Hrun].
  { vm_compute. reflexivity. }
  exists st. split; [exact Hrun|].
  destruct result_store_distinct as (_ & _ & Hsolve).
  exact (Hsolve 10%nat [demo_lecture] st Hrun).
Defined.

(** ** Accepted schedules *)

Lemma cursors_of_init (subjects : list Subject) :
  cursors_of subjects (Allocation_init <$> subjects).
Proof.
  unfold cursors_of. induction subjects as [|s l IH]; constructor; auto.
Qed.

Lemma cursors_of_alter subjects allocations f i :
  f = advance ∨ f = reverse ∨ f = reset_end_status →
  cursors_of subjects allocations →
  cursors_of subjects (alter f i allocations).
Proof.
  intros Hf Hcur. apply Forall2_alter_r; [done|].
  intros s a _ _ <-. destruct Hf as [->|[->| ->]]; [| |done].
  - unfold advance. by case_bool_decide.
  - unfold reverse. by case_bool_decide.
Qed.

Lemma evaluate_frame (st st' : State) :
  evaluate st = Ok st' →
  allocations st' = allocations st ∧ permutations st' = permutations st ∧
  ∃ schedule,
    create_schedule (subjects st) (allocations st)
      = Ok (subjects st', schedule).
Proof.
  intros (subjects' & schedule & Hcreate & ->)%evaluate_Ok. simpl.
  destruct (negb _ && negb _); simpl; eauto.
Qed.

(** During a run the subjects are the same, with no allocated time, each
    time [percolate] is entered or left, and every saved schedule was
    accepted from them. *)
Lemma percolate_saved (subjects0 : list Subject) (limit : nat)
    (st st' : State) :
  Forall (λ s, allocated_times s = ∅) subjects0 →
  subjects st = subjects0 ∧ cursors_of subjects0 (allocations st) ∧
    Forall (accepted_from subjects0) (saved_schedules st) →
  percolate limit st = Ok st' →
  subjects st' = subjects0 ∧ cursors_of subjects0 (allocations st') ∧
    Forall (accepted_from subjects0) (saved_schedules st').
Proof.
  intros Hreset.
  pose (P := λ st1, subjects st1 = subjects0 ∧
                    cursors_of subjects0 (allocations st1) ∧
                    Forall (accepted_from subjects0) (saved_schedules st1)).
  apply (percolate_invariant P); subst P; simpl.
  - intros st1 i f Hf (? & ? & ?). split_and!; [done| |done].
    by apply cursors_of_alter.
  - done.
  - intros st1 st2 (Hsub & Hcur & Hsaved) Heval.
    destruct (evaluate_frame _ _ Heval) as (-> & _ & schedule' & Hcreate').
    destruct (evaluate_store _ _ Heval)
      as (subjects' & schedule & Hcreate & Hcases).
    rewrite Hcreate' in Hcreate. injection Hcreate as <- ->.
    rewrite Hsub in Hcreate'.
    apply create_schedule_Ok in Hcreate'
      as (subjects1 & newsched & Hmat & Hsub2 & ->).
    destruct (materialize_facts _ _ _ _ Hmat) as (Hstatic & Hne & _).
    split_and!; [|done|].
    + by rewrite Hsub2, Hstatic, reset_id.
    + destruct Hcases as [(_ & -> & _)|[(_ & _ & -> & _)|
                          (_ & Hfalse & -> & _)]]; [done..|].
      apply Forall_app. split; [done|]. apply Forall_singleton.
      unfold table_is_false in Hfalse. simpl in Hfalse.
      exists (allocations st1), subjects1, newsched.
      destruct (_.2); [done|]. done.
Qed.

Lemma solve_saved (limit : nat) (subjects0 : list Subject) (st : State) :
  Forall (λ s, allocated_times s = ∅) subjects0 →
  solve limit subjects0 = Ok st →
  Forall (accepted_from subjects0) (saved_schedules st).
Proof.
  intros Hreset Hrun.
  eapply (percolate_saved subjects0) in Hrun as (_ & _ & ?); [done..|].
  simpl. split_and!; [done|apply cursors_of_init|constructor].
Qed.

(** C4. In the table of every saved schedule, every instant of every slot
    allocated to a subject holds the name of that subject, so that no two
    distinct subjects have allocated slots sharing an instant; and an
    allocation step never changes an instant that already holds a name. The
    names are those of the subject files: non-empty and pairwise distinct. *)
Theorem saved_tables_conflict_free (limit : nat) (subjects0 : list Subject)
    (st : State) (schedule : Schedule) :
  Forall (λ s, allocated_times s = ∅) subjects0 →
  Forall (λ s, name s ≠ ""%string) subjects0 →
  NoDup (name <$> subjects0) →
  solve limit subjects0 = Ok st →
  schedule ∈ saved_schedules st →
  ∃ allocations subjects' newsched,
    table schedule = Some newsched ∧
    materialize subjects0 allocations = Ok (subjects', newsched) ∧
    rtc (step allocations) (subjects0, empty_schedule) (subjects', newsched) ∧
    (∀ k s selected_time t,
       subjects' !! k = Some s → selected_time ∈ allocated_times s →
       on_tick selected_time t → newsched !! t = Some (name s)) ∧
    (∀ k1 k2 s1 s2 time1 time2 t,
       subjects' !! k1 = Some s1 → subjects' !! k2 = Some s2 →
       time1 ∈ allocated_times s1 → time2 ∈ allocated_times s2 →
       on_tick time1 t → on_tick time2 t → k1 = k2) ∧
    (∀ st1 st2 t v,
       step allocations st1 st2 →
       st1.2 !! t = Some v → v ≠ ""%string → st2.2 !! t = Some v).
Proof.
  intros Hreset Hnames Hnodup Hrun Hin.
  pose proof (solve_saved _ _ _ Hreset Hrun) as Hsaved.
  rewrite Forall_forall in Hsaved.
  destruct (Hsaved schedule Hin)
    as (allocations & subjects' & newsched & _ & Hmat & -> & _).
  destruct (materialize_facts _ _ _ _ Hmat) as (Hstatic & _ & Hinv).
  destruct (Hinv Hreset) as [_ Hticks]. specialize (Hticks Hnames).
  exists allocations, subjects', newsched.
  split_and!; [done|done|by apply materialize_steps| | |].
  - intros k s slot t. apply Hticks.
  - intros k1 k2 s1 s2 time1 time2 t Hk1 Hk2 Ht1 Ht2 Hon1 Hon2.
    pose proof (Hticks k1 s1 time1 t Hk1 Ht1 Hon1) as Hn1.
    pose proof (Hticks k2 s2 time2 t Hk2 Ht2 Hon2) as Hn2.
    simpl in *. rewrite Hn1 in Hn2. injection Hn2 as Heq.
    destruct (static_lookup _ _ _ _ Hstatic Hk1) as (s1' & Hk1' & Hname1 & _).
    destruct (static_lookup _ _ _ _ Hstatic Hk2) as (s2' & Hk2' & Hname2 & _).
    eapply (NoDup_lookup _ k1 k2 (name s1')) in Hnodup; [done|..];
      rewrite list_lookup_fmap.
    + by rewrite Hk1'.
    + rewrite Hk2'. simpl. congruence.
  - intros st1 st2 t v. apply step_keeps_written.
Qed.

Lemma saved_tables_conflict_free_witness :
  ∃ st, solve 10 [demo_exercise; demo_lecture] = Ok st ∧
        ∀ schedule, schedule ∈ saved_schedules st →
                    ∃ newsched, table schedule = Some newsched.
Proof.
  destruct (returns_Ok (solve 10 [demo_exercise; demo_lecture])) as [st Hrun].
  { vm_compute. reflexivity. }
  exists st. split; [exact Hrun|]. intros schedule Hin.
  destruct (saved_tables_conflict_free 10 [demo_exercise; demo_lecture]
              st schedule) as (? & ? & newsched & Htable & _).
  - repeat (apply Forall_cons_2; [reflexivity|]). apply Forall_nil_2.
  - repeat (apply Forall_cons_2; [discriminate|]). apply Forall_nil_2.
  - apply (bool_decide_unpack _). vm_compute. exact I.
  - exact Hrun.
  - exact Hin.
  - exists newsched. exact Htable.
Defined.

(** ** UE subjects *)

Lemma step_selected_only allocations st st' :
  step allocations st st' →
  selected_only allocations st.1 → selected_only allocations st'.1.
Proof.
  intros Hstep Hinv k s slot Hk Htype Hslot.
  destruct Hstep as [i j allocation booltuple subjects newsched subject
                       selected_time Ha Hb Hj Hi Ht Hfree
                    |i subjects newsched subject selected_time Hi Hvo _ _ _];
    simpl in *;
    destruct (lookup_insert_marked _ _ _ _ _ _ Hi Hk) as [[-> ->]|[_ Hk']];
    simpl in *; try by eapply Hinv.
  - apply elem_of_union in Hslot as [->%elem_of_singleton|Hslot].
    + by exists allocation, booltuple, j.
    + by eapply Hinv.
  - congruence.
Qed.

Lemma steps_selected_only allocations st st' :
  rtc (step allocations) st st' →
  selected_only allocations st.1 → selected_only allocations st'.1.
Proof.
  induction 1 as [|st1 st2 st3 Hstep _ IH]; [done|].
  intros Hinv. by eapply IH, step_selected_only.
Qed.

Lemma proper_subset (l : list Subject) (s : Subject) :
  allocated_within l → s ∈ l →
  allocated_times s ≠ list_to_set (times s) →
  allocated_times s ⊂ list_to_set (times s).
Proof.
  intros Hsub [k Hk]%list_elem_of_lookup Hne. split.
  - intros slot Hslot. apply elem_of_list_to_set. by eapply Hsub.
  - intros Hsup. apply Hne, set_eq. intros slot. split; [|apply Hsup].
    intros Hslot. apply elem_of_list_to_set. by eapply Hsub.
Qed.

(** A UE subject is complete as soon as it has one slot. *)
Lemma classify_subject_UE (s : Subject) (flags : bool * bool) :
  type s = UE → (classify_subject flags s).1 = flags.1.
Proof.
  unfold classify_subject, is_complete, is_partially_complete. intros ->.
  by case_bool_decide.
Qed.

(** C7. In every saved schedule every UE subject was allocated exactly one
    of its times. A UE subject never raises the incomplete flag: when the
    flag of a saved schedule is up, some VO subject was allocated a proper
    subset of its times. *)
Theorem required_one_gets_one_slot (limit : nat) (subjects0 : list Subject)
    (st : State) (schedule : Schedule) :
  Forall (λ s, allocated_times s = ∅) subjects0 →
  solve limit subjects0 = Ok st →
  schedule ∈ saved_schedules st →
  ∃ allocations subjects' newsched,
    table schedule = Some newsched ∧
    materialize subjects0 allocations = Ok (subjects', newsched) ∧
    (∀ s, s ∈ subjects' → type s = UE →
          ∃ selected_time, allocated_times s = {[selected_time]} ∧
                           selected_time ∈ times s) ∧
    (∀ s flags, type s = UE → (classify_subject flags s).1 = flags.1) ∧
    (is_incomplete schedule = true →
     ∃ s, s ∈ subjects' ∧ type s = VO ∧
          allocated_times s ⊂ list_to_set (times s)).
Proof.
  intros Hreset Hrun Hin.
  pose proof (solve_saved _ _ _ Hreset Hrun) as Hsaved.
  rewrite Forall_forall in Hsaved.
  destruct (Hsaved schedule Hin)
    as (allocations & subjects' & newsched & Hcur & Hmat & -> & Hok).
  destruct (materialize_facts _ _ _ _ Hmat) as (Hstatic & _ & Hinv).
  destruct (Hinv Hreset) as [Hwithin _]. clear Hinv.
  destruct (classify_flags subjects' (false, false)) as [Hfail Hinc].
  simpl in *.
  exists allocations, subjects', newsched.
  split_and!; [done|done| |apply classify_subject_UE|].
  - intros s Hs Hue.
    assert (allocated_times s ≠ ∅) as Hne.
    { intros Hempty. rewrite Hok in Hfail. destruct Hfail as [_ Hfail].
      discriminate Hfail. right. by exists s. }
    apply set_choose_L in Hne as [slot Hslot]. exists slot.
    apply list_elem_of_lookup in Hs as [k Hk].
    split; [|by eapply Hwithin].
    pose proof (steps_selected_only _ _ _ (materialize_steps _ _ _ Hmat))
      as Hsel.
    simpl in Hsel.
    assert (selected_only allocations subjects0) as Hsel0.
    { intros k0 s0 slot0 Hk0 _ Hslot0. rewrite Forall_lookup in Hreset.
      rewrite (Hreset k0 s0 Hk0) in Hslot0.
      by apply not_elem_of_empty in Hslot0. }
    specialize (Hsel Hsel0).
    destruct (Hsel k s slot Hk Hue Hslot) as (a & v & j & Ha & Hv & Hj & Ht).
    destruct (static_lookup _ _ _ _ Hstatic Hk) as (s0 & Hk0 & _ & Hty & Htm).
    pose proof (Forall2_lookup_lr _ _ _ _ _ _ Hcur Hk0 Ha) as Harr.
    assert (valid_vector s0 v) as [_ Hvalid].
    { apply elem_of_Allocation_init. rewrite <-Harr.
      apply getitem_Ok in Hv. by eapply list_elem_of_lookup_2. }
    rewrite Hty, Hue in Hvalid. destruct Hvalid as (j0 & _ & Huniq).
    apply set_eq. intros slot'. rewrite elem_of_singleton. split; [|by intros ->].
    intros Hslot'.
    destruct (Hsel k s slot' Hk Hue Hslot')
      as (a' & v' & j' & Ha' & Hv' & Hj' & Ht').
    rewrite Ha in Ha'. injection Ha' as <-.
    rewrite Hv in Hv'. injection Hv' as <-.
    rewrite (Huniq j Hj) in Ht. rewrite (Huniq j' Hj') in Ht'. congruence.
  - intros Hflag. destruct Hinc as [[Hfalse|(s & Hs & _ & Hvo & Hne)] _];
      [done|done|].
    exists s. split_and!; [done..|]. by eapply proper_subset.
Qed.

Lemma required_one_gets_one_slot_witness :
  ∃ st, solve 10 [demo_exercise; demo_lecture] = Ok st ∧
        ∀ schedule, schedule ∈ saved_schedules st →
                    ∃ newsched, table schedule = Some newsched.
Proof.
  destruct (returns_Ok (solve 10 [demo_exercise; demo_lecture])) as [st Hrun].
  { vm_compute. reflexivity. }
  exists st. split; [exact Hrun|]. intros schedule Hin.
  destruct (required_one_gets_one_slot 10 [demo_exercise; demo_lecture]
              st schedule) as (? & ? & newsched & Htable & _).
  - repeat (apply Forall_cons_2; [reflexivity|]). apply Forall_nil_2.
  - exact Hrun.
  - exact Hin.
  - exists newsched. exact Htable.
Defined.

(** ** A subject without times *)

Lemma product_nil {A} : product (@nil (list A)) = [[]].
Proof. reflexivity. Qed.

Lemma Allocation_init_no_times (s : Subject) :
  times s = [] → __array (Allocation_init s) = [].
Proof.
  unfold Allocation_init. intros ->. simpl. rewrite product_nil.
  by destruct (type s).
Qed.

Lemma get_array_raises (a : Allocation) :
  (∃ v, get_array a = Ok v) ∨ get_array a = Raise IndexError.
Proof.
  unfold get_array, getitem. destruct (_ !! _); [left|right]; eauto.
Qed.

Lemma current_arrays_raises (allocations : list Allocation) (a : Allocation) :
  a ∈ allocations → get_array a = Raise IndexError →
  current_arrays allocations = Raise IndexError.
Proof.
  intros Hin Ha. induction Hin as [a l|a b l Hin IH]; simpl.
  - by rewrite Ha.
  - destruct (get_array_raises b) as [[v ->]| ->]; [|done]. simpl.
    by rewrite IH.
Qed.

Lemma list_find_init_None (l : list Subject) :
  list_find (λ a, has_reached_end a = true) (Allocation_init <$> l) = None.
Proof.
  apply list_find_None, Forall_fmap, Forall_true. by intros s.
Qed.

(** C1, on the code. A subject without times gets a cursor over no tuple at
    all, and the traversal does not treat it as a subject that fails: its
    first reading of the current tuple of that cursor raises [IndexError],
    which leaves [percolate] before any combination is evaluated. *)
Theorem no_times_raises_IndexError (limit : nat) (subjects0 : list Subject)
    (s : Subject) :
  s ∈ subjects0 → times s = [] →
  __array (Allocation_init s) = [] ∧
  get_array (Allocation_init s) = Raise IndexError ∧
  solve (S limit) subjects0 = Raise IndexError.
Proof.
  intros Hin Htimes.
  pose proof (Allocation_init_no_times s Htimes) as Harr.
  assert (get_array (Allocation_init s) = Raise IndexError) as Hget.
  { unfold get_array. by rewrite Harr. }
  split_and!; [done..|].
  unfold solve. simpl. rewrite list_find_init_None.
  rewrite (current_arrays_raises _ (Allocation_init s)); [done| |done].
  by apply list_elem_of_fmap_2.
Qed.

Lemma no_times_raises_IndexError_witness :
  solve 1 [demo_exercise; demo_no_times] = Raise IndexError.
Proof.
  apply (no_times_raises_IndexError 0 [demo_exercise; demo_no_times]
                                    demo_no_times).
  - right. left.
  - reflexivity.
Defined.

(** ** A combination the traversal never reaches *)

Lemma holds_after_true {A} (r : res A) (p : A → bool) :
  holds_after r p = true → ∃ a, r = Ok a ∧ p a = true.
Proof. destruct r as [a|e]; [by exists a|done]. Qed.

Lemma for_each_mono {A S} (l : list A) (body body' : A → S → res S)
    (s s' : S) :
  (∀ x s1 s2, body x s1 = Ok s2 → body' x s1 = Ok s2) →
  for_each l body s = Ok s' → for_each l body' s = Ok s'.
Proof.
  intros Hbody. revert s. induction l as [|x l IH]; intros s; simpl; [done|].
  intros (s1 & Hx & Hrest)%bind_Ok. rewrite (Hbody _ _ _ Hx). simpl.
  by apply IH.
Qed.

(** A run that returns within a recursion limit returns the same state
    within any larger one. *)
Lemma percolate_mono (limit limit' : nat) (st st' : State) :
  (limit ≤ limit')%nat →
  percolate limit st = Ok st' → percolate limit' st = Ok st'.
Proof.
  revert limit' st st'.
  induction limit as [|limit IH]; intros limit' st st' Hle; [done|].
  destruct limit' as [|limit']; [lia|]. simpl.
  destruct (list_find _ _) as [[i a]|]; [done|].
  intros (perm_check & -> & Hrun)%bind_Ok. simpl.
  case_bool_decide; [done|].
  apply bind_Ok in Hrun as (st1 & -> & Hloop). simpl.
  revert Hloop. apply for_each_mono. intros i st2 st3.
  intros (st4 & Hrec & Hrev)%bind_Ok.
  rewrite (IH limit' _ _ ltac:(lia) Hrec). done.
Qed.

(** C2, on the code. On three UE subjects with 4, 3 and 3 times the run
    returns, within a recursion limit of 100 or more. The product of the
    cursors has 36 combinations, each of them a tuple of valid vectors, and
    [percolate] evaluates 35 of them: the combination [missed_combination]
    never enters the memo set, and the schedule it gives, which has a table
    and is no duplicate of a saved one, is not among the 35 saved. *)
Theorem traversal_misses_a_combination (limit : nat) :
  (100 ≤ limit)%nat →
  ∃ st schedule,
    solve limit three_subjects = Ok st ∧
    Forall2 (λ s v, v ∈ __array (Allocation_init s))
            three_subjects missed_combination ∧
    foldr Nat.mul 1%nat
          ((λ s, length (__array (Allocation_init s))) <$> three_subjects)
      = 36%nat ∧
    size (permutations st) = 35%nat ∧
    (missed_combination ∉ permutations st) ∧
    length (saved_schedules st) = 35%nat ∧
    duplicates st = 0%nat ∧
    current_arrays missed_cursors = Ok missed_combination ∧
    create_schedule three_subjects missed_cursors
      = Ok (three_subjects, schedule) ∧
    table schedule ≠ None ∧
    ∀ element, element ∈ saved_schedules st →
               table element ≠ table schedule.
Proof.
  intros Hlimit.
  destruct (holds_after_true (solve 100 three_subjects)
              (λ st, bool_decide (size (permutations st) = 35%nat) &&
                     bool_decide (missed_combination ∉ permutations st) &&
                     bool_decide (length (saved_schedules st) = 35%nat) &&
                     bool_decide (duplicates st = 0%nat) &&
                     holds_after
                       (create_schedule three_subjects missed_cursors)
                       (λ r, bool_decide (r.1 = three_subjects) &&
                             negb (table_is_false r.2) &&
                             negb (existsb (Schedule_eq r.2)
                                           (saved_schedules st)))))
    as (st & Hrun & Hst).
  { vm_compute. reflexivity. }
  apply andb_prop in Hst as [Hst Hmissed].
  repeat (apply andb_prop in Hst as [Hst ?%bool_decide_eq_true]).
  apply bool_decide_eq_true in Hst.
  apply holds_after_true in Hmissed as ([subjects' schedule] & Hcreate & Hr).
  simpl in Hr. apply andb_prop in Hr as [Hr Hnew].
  apply andb_prop in Hr as [->%bool_decide_eq_true Htable].
  exists st, schedule. split; [by eapply percolate_mono|].
  split; [|split; [reflexivity|]].
  { unfold three_subjects, missed_combination.
    repeat (apply Forall2_cons_2;
            [apply (bool_decide_unpack _); vm_compute; exact I|]).
    apply Forall2_nil_2. }
  split_and!; [assumption..|reflexivity|exact Hcreate| |].
  - intros Hnone. unfold table_is_false in Htable. rewrite Hnone in Htable.
    discriminate Htable.
  - intros element Hin Heq. apply negb_true_iff in Hnew.
    apply not_true_iff_false in Hnew. apply Hnew, existsb_Schedule_eq.
    exists element. split; assumption.
Qed.

Lemma traversal_misses_a_combination_witness :
  ∃ st, solve 120 three_subjects = Ok st ∧ size (permutations st) = 35%nat.
Proof.
  destruct (traversal_misses_a_combination 120) as (st & _ & Hrun & _ & _ & Hsize & _).
  - lia.
  - exists st. split; [exact Hrun|exact Hsize].
Defined.

(** ** [create_schedule] against the two passes of the specification *)

Lemma elem_of_slot_ticks (slot : Z * Z) (t : Z) :
  t ∈ spec_slot_ticks slot ↔ on_tick slot t.
Proof.
  destruct slot as [a b]. unfold spec_slot_ticks, range_step, on_tick. simpl.
  rewrite list_elem_of_fmap. setoid_rewrite elem_of_seqZ. split.
  - intros (k & -> & Hk). replace (a + 5 * k - a) with (k * 5) by lia.
    rewrite Z.mod_mul by lia. split; [|done].
    assert (5 * (k + 1) ≤ b - a + 5 - 1); [|lia].
    etrans; [|apply (Z.mul_div_le _ 5); lia]. lia.
  - intros [Ht Hmod]. exists ((t - a) `div` 5).
    pose proof (Z.div_mod (t - a) 5) as Hdm. rewrite Hmod in Hdm.
    split; [lia|]. split; [apply Z.div_pos; lia|].
    apply Z.div_lt_upper_bound; [lia|].
    pose proof (Z.mul_succ_div_gt (b - a + 5 - 1) 5). lia.
Qed.

Lemma range_is_free_true (grid : gmap Z string) (slot : Z * Z) :
  spec_range_is_free grid slot = true ↔
  ∀ t, on_tick slot t → grid !! t = Some ""%string.
Proof.
  unfold spec_range_is_free. rewrite forallb_forall.
  setoid_rewrite <-list_elem_of_In. setoid_rewrite elem_of_slot_ticks.
  by setoid_rewrite bool_decide_eq_true.
Qed.

Lemma is_free_range_is_free (grid : gmap Z string) (slot : Z * Z) (b : bool) :
  is_free grid slot = Ok b → spec_range_is_free grid slot = b.
Proof.
  destruct b.
  - intros Hfree. by apply range_is_free_true, is_free_true.
  - intros (t & v & Hon & Hv & Hne)%is_free_false.
    apply not_true_is_false. rewrite range_is_free_true. intros Hall.
    rewrite (Hall t Hon) in Hv. congruence.
Qed.

Lemma write_range_lookup (grid : gmap Z string) (nm : string) (slot : Z * Z)
    (t : Z) :
  spec_write_range grid nm slot !! t =
    if decide (on_tick slot t) then Some nm else grid !! t.
Proof.
  unfold spec_write_range.
  assert (∀ l (g : gmap Z string), foldl (λ g t, <[t := nm]> g) g l !! t =
                 if decide (t ∈ l) then Some nm else g !! t) as Hfold.
  { induction l as [|t' l IH]; intros g; cbn [foldl].
    - case_decide as Hin; [by apply elem_of_nil in Hin|done].
    - rewrite IH. destruct (decide (t ∈ l)) as [Hin|Hnin].
      + rewrite decide_True; [done|by right].
      + destruct (decide (t = t')) as [->|Hne].
        * rewrite lookup_insert_eq, decide_True; [done|by left].
        * rewrite lookup_insert_ne by done. rewrite decide_False; [done|].
          by intros [?|?]%elem_of_cons. }
  rewrite Hfold. destruct (decide (on_tick slot t)) as [Hon|Hoff].
  - rewrite decide_True; [done|by apply elem_of_slot_ticks].
  - rewrite decide_False; [done|by rewrite elem_of_slot_ticks].
Qed.

Lemma fill_write_range (grid : gmap Z string) (subject : Subject)
    (slot : Z * Z) :
  fill grid subject slot = spec_write_range grid (name subject) slot.
Proof. apply map_eq. intros t. by rewrite fill_lookup, write_range_lookup. Qed.

Lemma allocate_if_free_is_free (g : gmap Z string) (subject : Subject)
    (slot : Z * Z) (free : bool) :
  is_free g slot = Ok free →
  spec_allocate_if_free slot (g, subject) =
    if free then (fill g subject slot, mark_allocated subject slot)
    else (g, subject).
Proof.
  intros Hfree%is_free_range_is_free. unfold spec_allocate_if_free. simpl.
  rewrite Hfree. destruct free; [|done]. by rewrite fill_write_range.
Qed.

Lemma current_arrays_Ok (allocations : list Allocation)
    (vectors : list (list bool)) :
  current_arrays allocations = Ok vectors ↔
  Forall2 (λ a v, get_array a = Ok v) allocations vectors.
Proof.
  revert vectors. induction allocations as [|a l IH]; intros vectors; simpl.
  - split; [intros [= <-]; constructor|by intros ->%Forall2_nil_inv_l].
  - rewrite bind_Ok. split.
    + intros (v & Hv & (r & Hr%IH & [= <-])%bind_Ok). by constructor.
    + intros (v & r & Hv & Hr%IH & ->)%Forall2_cons_inv_l.
      exists v. split; [done|]. apply bind_Ok. by exists r.
Qed.

Section first_come.
Context (allocations : list Allocation) (vectors : list (list bool)).
Hypothesis Hvectors : Forall2 (λ a v, get_array a = Ok v) allocations vectors.

(** The loop over the slots of subject [i], from slot [j0] on. *)
Lemma first_pass_slots_two_passes (i : nat) (vector : list bool) (n : nat) :
  vectors !! i = Some vector →
  ∀ j0 subjects g subject st',
    subjects !! i = Some subject →
    (j0 + n = length (times subject))%nat →
    for_each (seq j0 n) (first_pass_slot allocations i) (subjects, g)
      = Ok st' →
    let r := foldl spec_first_come_slot (g, subject)
                   (zip (drop j0 (times subject)) (drop j0 vector)) in
    st' = (<[i := r.2]> subjects, r.1).
Proof.
  intros Hvector.
  destruct (Forall2_lookup_r _ _ _ _ _ Hvectors Hvector)
    as (allocation & Hallocation & Harray).
  induction n as [|n IH]; intros j0 subjects g subject st' Hi Hlen Hrun;
    simpl in Hrun.
  - injection Hrun as <-. rewrite (drop_ge (times subject)) by lia. simpl.
    by rewrite list_insert_id.
  - apply bind_Ok in Hrun as (st1 & Hbody & Hrest).
    destruct (lookup_lt_is_Some_2 (times subject) j0) as [slot Hslot];
      [lia|].
    unfold first_pass_slot in Hbody.
    apply bind_Ok in Hbody as (a' & Ha'%getitem_Ok & Hbody).
    rewrite Hallocation in Ha'. injection Ha' as <-.
    apply bind_Ok in Hbody as (v' & Hv' & Hbody).
    rewrite Harray in Hv'. injection Hv' as <-.
    apply bind_Ok in Hbody as (b & Hb%getitem_Ok & Hbody).
    rewrite (drop_S _ _ _ Hslot), (drop_S _ _ _ Hb). cbn [zip zip_with foldl].
    destruct b.
    + apply bind_Ok in Hbody as (s' & Hs'%getitem_Ok & Hbody).
      rewrite Hi in Hs'. injection Hs' as <-.
      apply bind_Ok in Hbody as (slot' & Hslot'%getitem_Ok & Hbody).
      rewrite Hslot in Hslot'. injection Hslot' as <-.
      apply bind_Ok in Hbody as (free & Hfree & Hbody).
      assert (spec_first_come_slot (g, subject) (slot, true) =
              if free then (fill g subject slot, mark_allocated subject slot)
              else (g, subject)) as ->.
      { unfold spec_first_come_slot. simpl.
        by rewrite (allocate_if_free_is_free _ _ _ _ Hfree). }
      destruct free; injection Hbody as <-.
      * eapply (IH (S j0)) in Hrest;
          [|apply list_lookup_insert_eq; by eapply lookup_lt_Some
           |simpl; lia].
        simpl in Hrest. by rewrite list_insert_insert_eq in Hrest.
      * eapply (IH (S j0)) in Hrest; [done..|lia].
    + injection Hbody as <-.
      assert (spec_first_come_slot (g, subject) (slot, false) = (g, subject))
        as -> by done.
      eapply (IH (S j0)) in Hrest; [done..|lia].
Qed.

Lemma first_pass_subject_two_passes (i : nat) (vector : list bool)
    (subjects : list Subject) (g : gmap Z string) (subject : Subject)
    (st' : list Subject * gmap Z string) :
  vectors !! i = Some vector →
  subjects !! i = Some subject →
  first_pass_subject allocations i (subjects, g) = Ok st' →
  st' = (<[i := (spec_first_come_subject subject vector g).2]> subjects,
         (spec_first_come_subject subject vector g).1).
Proof.
  intros Hvector Hi. unfold first_pass_subject. simpl.
  intros (s' & Hs'%getitem_Ok & Hrun)%bind_Ok.
  rewrite Hi in Hs'. injection Hs' as <-.
  eapply first_pass_slots_two_passes in Hrun; [|done..].
  by rewrite !drop_0 in Hrun.
Qed.

(** The loop over the subjects, from subject [i0] on. *)
Lemma first_pass_two_passes (n : nat) :
  ∀ i0 subjects g st',
    (i0 + n = length subjects)%nat →
    length vectors = length subjects →
    for_each (seq i0 n) (first_pass_subject allocations) (subjects, g)
      = Ok st' →
    let r := spec_first_come_pass (drop i0 subjects) (drop i0 vectors) g in
    st' = (take i0 subjects ++ r.2, r.1).
Proof.
  induction n as [|n IH]; intros i0 subjects g st' Hlen Hlenv Hrun;
    simpl in Hrun.
  - injection Hrun as <-. rewrite (drop_ge subjects) by lia. simpl.
    by rewrite take_ge, app_nil_r by lia.
  - apply bind_Ok in Hrun as (st1 & Hbody & Hrest).
    destruct (lookup_lt_is_Some_2 subjects i0) as [subject Hi]; [lia|].
    destruct (lookup_lt_is_Some_2 vectors i0) as [vector Hv]; [lia|].
    eapply first_pass_subject_two_passes in Hbody; [|done..]. subst st1.
    rewrite (drop_S _ _ _ Hi), (drop_S _ _ _ Hv). cbn [spec_first_come_pass].
    destruct (spec_first_come_subject subject vector g) as [g1 s1]. simpl in *.
    eapply (IH (S i0)) in Hrest;
      [|by rewrite length_insert; lia|by rewrite length_insert].
    rewrite drop_insert_lt in Hrest by lia.
    rewrite (take_S_r _ _ s1) in Hrest
      by (apply list_lookup_insert_eq; lia).
    rewrite take_insert_ge in Hrest by lia.
    destruct (spec_first_come_pass _ _ g1) as [g2 rest]. simpl in *.
    by rewrite <-(assoc_L (++)) in Hrest.
Qed.
End first_come.

Lemma second_pass_slots_two_passes (i : nat) (slots : list (Z * Z)) :
  ∀ subjects g subject st',
    subjects !! i = Some subject →
    for_each slots (second_pass_slot i) (subjects, g) = Ok st' →
    let r := foldl spec_fill_slot (g, subject) slots in
    st' = (<[i := r.2]> subjects, r.1).
Proof.
  induction slots as [|slot slots IH]; intros subjects g subject st' Hi Hrun;
    simpl in Hrun.
  - injection Hrun as <-. simpl. by rewrite list_insert_id.
  - apply bind_Ok in Hrun as (st1 & Hbody & Hrest).
    cbn [foldl]. unfold second_pass_slot in Hbody.
    apply bind_Ok in Hbody as (s' & Hs'%getitem_Ok & Hbody).
    rewrite Hi in Hs'. injection Hs' as <-.
    destruct (decide (slot ∈ allocated_times subject)) as [Hin|Hnotin].
    + rewrite bool_decide_eq_false_2 in Hbody by auto.
      assert (spec_fill_slot (g, subject) slot = (g, subject)) as ->.
      { unfold spec_fill_slot. simpl. by rewrite bool_decide_eq_true_2. }
      injection Hbody as <-. by eapply IH in Hrest.
    + rewrite bool_decide_eq_true_2 in Hbody by done.
      apply bind_Ok in Hbody as (free & Hfree & Hbody).
      assert (spec_fill_slot (g, subject) slot =
              if free then (fill g subject slot, mark_allocated subject slot)
              else (g, subject)) as ->.
      { unfold spec_fill_slot. simpl. rewrite bool_decide_eq_false_2 by done.
        by rewrite (allocate_if_free_is_free _ _ _ _ Hfree). }
      destruct free; injection Hbody as <-.
      * eapply IH in Hrest;
          [|apply list_lookup_insert_eq; by eapply lookup_lt_Some].
        simpl in Hrest. by rewrite list_insert_insert_eq in Hrest.
      * by eapply IH in Hrest.
Qed.

Lemma second_pass_subject_two_passes (i : nat) (subjects : list Subject)
    (g : gmap Z string) (subject : Subject)
    (st' : list Subject * gmap Z string) :
  subjects !! i = Some subject →
  second_pass_subject i (subjects, g) = Ok st' →
  st' = (<[i := (spec_fill_subject subject g).2]> subjects,
         (spec_fill_subject subject g).1).
Proof.
  intros Hi. unfold second_pass_subject, spec_fill_subject. simpl.
  intros (s' & Hs'%getitem_Ok & Hrun)%bind_Ok.
  rewrite Hi in Hs'. injection Hs' as <-. destruct (type subject).
  - injection Hrun as <-. simpl. by rewrite list_insert_id.
  - by eapply second_pass_slots_two_passes in Hrun.
Qed.

Lemma second_pass_two_passes (n : nat) :
  ∀ i0 subjects g st',
    (i0 + n = length subjects)%nat →
    for_each (seq i0 n) second_pass_subject (subjects, g) = Ok st' →
    let r := spec_fill_pass (drop i0 subjects) g in
    st' = (take i0 subjects ++ r.2, r.1).
Proof.
  induction n as [|n IH]; intros i0 subjects g st' Hlen Hrun; simpl in Hrun.
  - injection Hrun as <-. rewrite (drop_ge subjects) by lia. simpl.
    by rewrite take_ge, app_nil_r by lia.
  - apply bind_Ok in Hrun as (st1 & Hbody & Hrest).
    destruct (lookup_lt_is_Some_2 subjects i0) as [subject Hi]; [lia|].
    eapply second_pass_subject_two_passes in Hbody; [|done]. subst st1.
    rewrite (drop_S _ _ _ Hi). cbn [spec_fill_pass].
    destruct (spec_fill_subject subject g) as [g1 s1]. simpl in *.
    eapply (IH (S i0)) in Hrest; [|by rewrite length_insert; lia].
    rewrite drop_insert_lt in Hrest by lia.
    rewrite (take_S_r _ _ s1) in Hrest by (apply list_lookup_insert_eq; lia).
    rewrite take_insert_ge in Hrest by lia.
    destruct (spec_fill_pass _ g1) as [g2 rest]. simpl in *.
    by rewrite <-(assoc_L (++)) in Hrest.
Qed.

Lemma materialize_two_passes (subjects : list Subject)
    (allocations : list Allocation) (vectors : list (list bool))
    (subjects' : list Subject) (newsched : gmap Z string) :
  current_arrays allocations = Ok vectors →
  length allocations = length subjects →
  materialize subjects allocations = Ok (subjects', newsched) →
  spec_two_passes subjects vectors = (newsched, subjects').
Proof.
  intros Hvectors%current_arrays_Ok Hlen.
  pose proof (Forall2_length _ _ _ Hvectors) as Hlenv.
  unfold materialize, first_pass, second_pass, spec_two_passes. simpl.
  intros (st1 & Hfirst & Hsecond)%bind_Ok.
  eapply (first_pass_two_passes _ _ Hvectors _ 0%nat) in Hfirst;
    [|simpl; lia|lia].
  rewrite !drop_0, take_0 in Hfirst. simpl in Hfirst. subst st1.
  destruct (spec_first_come_pass subjects vectors empty_schedule) as [g1 l1].
  simpl in Hsecond.
  eapply (second_pass_two_passes _ 0%nat) in Hsecond; [|simpl; lia].
  rewrite drop_0, take_0 in Hsecond. simpl in Hsecond.
  destruct (spec_fill_pass l1 g1) as [g2 l2]. by injection Hsecond as <- <-.
Qed.

(** ** Materialization returns *)

Lemma is_free_loop_total (n : nat) (g : gmap Z string) (t0 stop : Z) :
  (∀ t, on_tick (t0, stop) t → is_Some (g !! t)) →
  ∃ b, is_free_loop n g t0 stop = Ok b.
Proof.
  revert t0. induction n as [|n IH]; intros t0 Hkeys; simpl;
    case_bool_decide as Hlt; eauto.
  destruct (Hkeys t0) as [v ->]; [apply on_tick_step; auto|].
  destruct (truthy v); eauto.
  apply IH. intros t Hon. apply Hkeys, on_tick_step; auto.
Qed.

Lemma is_free_total (g : gmap Z string) (slot : Z * Z) :
  (∀ t, on_tick slot t → is_Some (g !! t)) → ∃ b, is_free g slot = Ok b.
Proof. destruct slot. apply is_free_loop_total. Qed.

Section total.
Context (subjects0 : list Subject) (allocations : list Allocation)
        (vectors : list (list bool)).
Hypothesis Hvectors : Forall2 (λ a v, get_array a = Ok v) allocations vectors.
Hypothesis Hlong :
  Forall2 (λ s v, length (times s) ≤ length v)%nat subjects0 vectors.
Hypothesis Hgrid : on_grid subjects0.

Lemma well_formed_step st st' :
  well_formed subjects0 st → st' = st ∨ step allocations st st' → well_formed subjects0 st'.
Proof.
  intros [Hstatic Hkeys] [->|Hstep]; [done|]. split.
  - by rewrite (step_static _ _ _ Hstep).
  - intros t Ht. by eapply step_keeps_keys, Hkeys.
Qed.

Lemma well_formed_length st :
  well_formed subjects0 st → length st.1 = length subjects0.
Proof.
  intros [Hstatic _]. apply (f_equal length) in Hstatic.
  by rewrite !length_fmap in Hstatic.
Qed.

Lemma well_formed_free st k s slot :
  well_formed subjects0 st → st.1 !! k = Some s → slot ∈ times s →
  ∃ b, is_free st.2 slot = Ok b.
Proof.
  intros [Hstatic Hkeys] Hk Hslot. apply is_free_total. intros t Hon.
  destruct (static_lookup _ _ _ _ Hstatic Hk) as (s0 & Hk0 & _ & _ & Htm).
  apply Hkeys. apply (Hgrid s0 slot t); [|by rewrite Htm|done].
  by eapply list_elem_of_lookup_2.
Qed.

Lemma first_pass_slot_total i j st s :
  well_formed subjects0 st → st.1 !! i = Some s → (j < length (times s))%nat →
  ∃ st', first_pass_slot allocations i j st = Ok st' ∧ well_formed subjects0 st'.
Proof.
  intros Hwf Hi Hj.
  cut (∃ st', first_pass_slot allocations i j st = Ok st').
  { intros [st' Hst']. exists st'. split; [done|].
    eapply well_formed_step; [done|]. by eapply first_pass_slot_step. }
  destruct Hwf as [Hstatic Hkeys].
  destruct (static_lookup _ _ _ _ Hstatic Hi) as (s0 & Hi0 & _ & _ & Htm).
  destruct (Forall2_lookup_l _ _ _ _ _ Hlong Hi0) as (v & Hv & Hlen).
  destruct (Forall2_lookup_r _ _ _ _ _ Hvectors Hv) as (a & Ha & Harr).
  destruct (lookup_lt_is_Some_2 v j) as [b Hb]; [rewrite Htm in Hlen; lia|].
  destruct (lookup_lt_is_Some_2 (times s) j) as [slot Hslot]; [done|].
  destruct st as [subjects g]. unfold first_pass_slot, getitem.
  rewrite Ha. simpl. rewrite Harr. simpl. unfold getitem. rewrite Hb. simpl.
  destruct b; [|eauto]. simpl in Hi. rewrite Hi. simpl.
  unfold getitem. rewrite Hslot. simpl.
  destruct (well_formed_free (subjects, g) i s slot) as [free Hfree];
    [done|done|by eapply list_elem_of_lookup_2|].
  simpl in Hfree. rewrite Hfree. simpl. destruct free; eauto.
Qed.

Lemma first_pass_total st :
  well_formed subjects0 st →
  ∃ st', first_pass allocations st = Ok st' ∧ well_formed subjects0 st'.
Proof.
  intros Hwf. unfold first_pass. apply for_each_total; [|done].
  intros i st1 [_ Hi]%elem_of_seq Hwf1. unfold first_pass_subject.
  apply well_formed_length in Hwf as Hlen.
  apply well_formed_length in Hwf1 as Hlen1.
  destruct (lookup_lt_is_Some_2 st1.1 i) as [s Hs]; [lia|].
  unfold getitem. rewrite Hs. simpl.
  cut (∃ st2, for_each (seq 0 (length (times s)))
                (first_pass_slot allocations i) st1 = Ok st2 ∧
              (well_formed subjects0 st2 ∧
               ∃ s2, st2.1 !! i = Some s2 ∧ times s2 = times s)).
  { intros (st2 & ? & ? & _). by exists st2. }
  apply for_each_total; [|by eauto].
  intros j st3 [_ Hj]%elem_of_seq (Hwf3 & s3 & Hs3 & Htm).
  destruct (first_pass_slot_total i j st3 s3) as (st4 & Hst4 & Hwf4);
    [done|done|rewrite Htm; lia|].
  exists st4. split_and!; [done..|].
  apply first_pass_slot_step in Hst4 as [->|Hstep]; [eauto|].
  apply step_static in Hstep.
  destruct (lookup_lt_is_Some_2 st4.1 i) as [s4 Hs4].
  { apply (f_equal length) in Hstep. rewrite !length_fmap in Hstep.
    rewrite Hstep. by eapply lookup_lt_Some. }
  exists s4. split; [done|].
  destruct (static_lookup _ _ _ _ Hstep Hs4) as (s3' & Hs3' & _ & _ & <-).
  congruence.
Qed.

Lemma second_pass_slot_total i slot st s :
  well_formed subjects0 st → st.1 !! i = Some s → type s = VO → slot ∈ times s →
  ∃ st', second_pass_slot i slot st = Ok st' ∧ well_formed subjects0 st'.
Proof.
  intros Hwf Hi Hvo Hslot.
  cut (∃ st', second_pass_slot i slot st = Ok st').
  { intros [st' Hst']. exists st'. split; [done|].
    eapply well_formed_step; [done|].
    eapply second_pass_slot_step; [|done].
    intros s' Hs'. rewrite Hi in Hs'. by injection Hs' as <-. }
  destruct (well_formed_free st i s slot Hwf Hi Hslot) as [free Hfree].
  destruct st as [subjects g]. unfold second_pass_slot, getitem.
  simpl in *. rewrite Hi. simpl. case_bool_decide; [|eauto].
  rewrite Hfree. simpl. destruct free; eauto.
Qed.

Lemma second_pass_total st :
  well_formed subjects0 st → ∃ st', second_pass st = Ok st' ∧ well_formed subjects0 st'.
Proof.
  intros Hwf. unfold second_pass. apply for_each_total; [|done].
  intros i st1 [_ Hi]%elem_of_seq Hwf1. unfold second_pass_subject.
  apply well_formed_length in Hwf as Hlen.
  apply well_formed_length in Hwf1 as Hlen1.
  destruct (lookup_lt_is_Some_2 st1.1 i) as [s Hs]; [lia|].
  unfold getitem. rewrite Hs. simpl.
  destruct (type s) eqn:Hvo; [by exists st1|].
  cut (∃ st2, for_each (times s) (second_pass_slot i) st1 = Ok st2 ∧
              (well_formed subjects0 st2 ∧
               ∃ s2, st2.1 !! i = Some s2 ∧ type s2 = VO ∧
                     times s2 = times s)).
  { intros (st2 & ? & ? & _). by exists st2. }
  apply for_each_total; [|by eauto].
  intros slot st3 Hslot (Hwf3 & s3 & Hs3 & Hvo3 & Htm).
  destruct (second_pass_slot_total i slot st3 s3) as (st4 & Hst4 & Hwf4);
    [done|done|done|by rewrite Htm|].
  exists st4. split_and!; [done..|].
  eapply (second_pass_slot_step allocations) in Hst4 as [->|Hstep];
    [eauto| |].
  - apply step_static in Hstep.
    destruct (lookup_lt_is_Some_2 st4.1 i) as [s4 Hs4].
    { apply (f_equal length) in Hstep. rewrite !length_fmap in Hstep.
      rewrite Hstep. by eapply lookup_lt_Some. }
    exists s4. split; [done|].
    destruct (static_lookup _ _ _ _ Hstep Hs4)
      as (s3' & Hs3' & _ & <- & <-).
    split; congruence.
  - intros s' Hs'. rewrite Hs3 in Hs'. injection Hs' as <-.
    by rewrite Htm.
Qed.

Lemma materialize_total :
  ∃ st', materialize subjects0 allocations = Ok st'.
Proof.
  unfold materialize.
  destruct (first_pass_total (subjects0, empty_schedule))
    as (st1 & -> & Hwf1); [by split|]. simpl.
  destruct (second_pass_total st1 Hwf1) as (st2 & -> & _). by exists st2.
Qed.
End total.

(** ** The fill pass tries every slot of a VO subject *)

Lemma allocate_if_free_keeps (slot' : Z * Z) (acc : gmap Z string * Subject) :
  reset (spec_allocate_if_free slot' acc).2 = reset acc.2 ∧
  allocated_times acc.2 ⊆ allocated_times (spec_allocate_if_free slot' acc).2 ∧
  ∀ slot, spec_range_is_free acc.1 slot = false →
          spec_range_is_free (spec_allocate_if_free slot' acc).1 slot = false.
Proof.
  unfold spec_allocate_if_free.
  destruct (spec_range_is_free acc.1 slot') eqn:Hfree; [|done]. simpl.
  split_and!; [done|apply union_subseteq_r|].
  intros slot Hblocked. apply not_true_is_false. intros Hfree'.
  apply not_true_iff_false in Hblocked. apply Hblocked.
  rewrite range_is_free_true in *. intros t Hon.
  specialize (Hfree' t Hon). rewrite write_range_lookup in Hfree'.
  case_decide; [by apply Hfree|done].
Qed.

Lemma fill_slot_keeps (slot' : Z * Z) (acc : gmap Z string * Subject) :
  reset (spec_fill_slot acc slot').2 = reset acc.2 ∧
  allocated_times acc.2 ⊆ allocated_times (spec_fill_slot acc slot').2 ∧
  ∀ slot, spec_range_is_free acc.1 slot = false →
          spec_range_is_free (spec_fill_slot acc slot').1 slot = false.
Proof.
  unfold spec_fill_slot. case_bool_decide; [done|apply allocate_if_free_keeps].
Qed.

Lemma fill_slot_attempt (slot : Z * Z) (acc : gmap Z string * Subject) :
  slot ∈ allocated_times (spec_fill_slot acc slot).2 ∨
  spec_range_is_free (spec_fill_slot acc slot).1 slot = false.
Proof.
  unfold spec_fill_slot. case_bool_decide; [by left|].
  unfold spec_allocate_if_free. destruct (spec_range_is_free acc.1 slot) eqn:Hfree.
  - left. simpl. apply elem_of_union_l. by apply elem_of_singleton.
  - by right.
Qed.

Lemma fill_slots_attempt (slots : list (Z * Z))
    (acc : gmap Z string * Subject) :
  reset (foldl spec_fill_slot acc slots).2 = reset acc.2 ∧
  (∀ slot, spec_range_is_free acc.1 slot = false →
           spec_range_is_free (foldl spec_fill_slot acc slots).1 slot = false) ∧
  (∀ slot, slot ∈ allocated_times acc.2 ∨ slot ∈ slots →
           slot ∈ allocated_times (foldl spec_fill_slot acc slots).2 ∨
           spec_range_is_free (foldl spec_fill_slot acc slots).1 slot = false).
Proof.
  revert acc. induction slots as [|slot' slots IH]; intros acc; cbn [foldl].
  - split_and!; [done..|]. by intros slot [?|?%elem_of_nil]; [left|].
  - destruct (IH (spec_fill_slot acc slot')) as (Hst & Hbl & Hat).
    destruct (fill_slot_keeps slot' acc) as (Hst' & Hmono & Hbl').
    split_and!.
    + by rewrite Hst.
    + intros slot Hblocked. by apply Hbl, Hbl'.
    + intros slot [Hin|[->|Hin]%elem_of_cons].
      * apply Hat. left. by apply Hmono.
      * destruct (fill_slot_attempt slot' acc) as [Hin|Hblocked].
        -- apply Hat. by left.
        -- right. by apply Hbl.
      * apply Hat. by right.
Qed.

Lemma reset_eq (s s' : Subject) :
  reset s' = reset s →
  name s' = name s ∧ type s' = type s ∧ times s' = times s.
Proof. by intros [= ? ? ?]. Qed.

Lemma fill_subject_attempt (subject : Subject) (grid : gmap Z string) :
  reset (spec_fill_subject subject grid).2 = reset subject ∧
  (∀ slot, spec_range_is_free grid slot = false →
           spec_range_is_free (spec_fill_subject subject grid).1 slot = false) ∧
  (type subject = VO →
   ∀ slot, slot ∈ times subject →
           slot ∈ allocated_times (spec_fill_subject subject grid).2 ∨
           spec_range_is_free (spec_fill_subject subject grid).1 slot = false).
Proof.
  unfold spec_fill_subject. destruct (type subject); [done|].
  destruct (fill_slots_attempt (times subject) (grid, subject))
    as (Hst & Hbl & Hat).
  split_and!; [done..|]. intros _ slot Hslot. apply Hat. by right.
Qed.

Lemma fill_pass_attempt (subjects : list Subject) (grid : gmap Z string) :
  (∀ slot, spec_range_is_free grid slot = false →
           spec_range_is_free (spec_fill_pass subjects grid).1 slot = false) ∧
  (∀ s slot, s ∈ (spec_fill_pass subjects grid).2 → type s = VO →
             slot ∈ times s →
             slot ∈ allocated_times s ∨
             spec_range_is_free (spec_fill_pass subjects grid).1 slot = false).
Proof.
  revert grid. induction subjects as [|subject subjects IH]; intros grid;
    cbn [spec_fill_pass].
  - split; [done|]. by intros s slot ?%elem_of_nil.
  - destruct (fill_subject_attempt subject grid) as (Hst & Hbl & Hat).
    destruct (spec_fill_subject subject grid) as [g1 s1]. simpl in *.
    destruct (IH g1) as [Hbl' Hat'].
    destruct (spec_fill_pass subjects g1) as [g2 rest]. simpl in *.
    apply reset_eq in Hst as (_ & Hty & Htm). split.
    + intros slot Hblocked. by apply Hbl', Hbl.
    + intros s slot [->|Hin]%elem_of_cons Hvo Hslot; [|by eapply Hat'].
      rewrite Hty in Hvo. rewrite Htm in Hslot.
      destruct (Hat Hvo slot Hslot) as [?|?]; [by left|right].
      by apply Hbl'.
Qed.

Lemma two_passes_attempt (subjects : list Subject)
    (vectors : list (list bool)) (s : Subject) (slot : Z * Z) :
  s ∈ (spec_two_passes subjects vectors).2 → type s = VO → slot ∈ times s →
  slot ∈ allocated_times s ∨
  spec_range_is_free (spec_two_passes subjects vectors).1 slot = false.
Proof.
  unfold spec_two_passes.
  destruct (spec_first_come_pass subjects vectors empty_schedule) as [g1 l1].
  apply fill_pass_attempt.
Qed.

(** C3. [create_schedule] fills an empty table in two passes. The first
    goes through the subjects in list order and through the times of each in
    declaration order, and writes a selected time over its whole range, for
    its subject, only when that whole range is free: the first writer keeps
    it and a time in conflict is skipped whole. The second gives every VO
    subject each of its times that is not allocated yet and is still free;
    it does not look at the selection vectors, so that in the end every time
    of a VO subject is allocated to it or is not free, selected or not. *)
Theorem materialize_is_two_passes (subjects : list Subject)
    (allocations : list Allocation) (vectors : list (list bool)) :
  current_arrays allocations = Ok vectors →
  Forall2 (λ s v, length (times s) ≤ length v)%nat subjects vectors →
  (on_grid subjects →
   ∃ subjects' newsched,
     materialize subjects allocations = Ok (subjects', newsched)) ∧
  (∀ subjects' newsched,
     materialize subjects allocations = Ok (subjects', newsched) →
     spec_two_passes subjects vectors = (newsched, subjects') ∧
     ∀ s slot, s ∈ subjects' → type s = VO → slot ∈ times s →
               slot ∈ allocated_times s ∨ spec_range_is_free newsched slot = false).
Proof.
  intros Hvectors Hlong. split.
  - intros Hgrid. apply current_arrays_Ok in Hvectors.
    destruct (materialize_total subjects allocations vectors Hvectors Hlong
                Hgrid) as [[subjects' newsched] Hmat].
    by exists subjects', newsched.
  - intros subjects' newsched Hmat.
    assert (spec_two_passes subjects vectors = (newsched, subjects')) as Htwo.
    { eapply materialize_two_passes; [done| |done].
      apply current_arrays_Ok in Hvectors.
      rewrite (Forall2_length _ _ _ Hvectors).
      by rewrite (Forall2_length _ _ _ Hlong). }
    split; [done|]. intros s slot Hs Hvo Hslot.
    pose proof (two_passes_attempt subjects vectors s slot) as Hat.
    rewrite Htwo in Hat. by apply Hat.
Qed.

(** A lecture with two times, the cursor on the tuple that selects the
    first one only: both are allocated. *)
Lemma materialize_is_two_passes_witness :
  ∃ subjects' newsched,
    materialize [demo_lecture] [advance (Allocation_init demo_lecture)]
      = Ok (subjects', newsched) ∧
    spec_two_passes [demo_lecture] [[true; false]] = (newsched, subjects') ∧
    allocated_times <$> subjects' = [{[(480, 570); (1920, 2010)]}].
Proof.
  destruct (materialize_is_two_passes
              [demo_lecture] [advance (Allocation_init demo_lecture)]
              [[true; false]]) as [Htotal Hspec].
  - reflexivity.
  - apply Forall2_cons_2; [simpl; lia|apply Forall2_nil_2].
  - destruct Htotal as (subjects' & newsched & Hmat).
    + intros s slot t Hs Hslot Hon.
      apply list_elem_of_singleton in Hs as ->.
      assert (bool_decide (Forall (λ slot, Forall (λ t,
                is_Some (empty_schedule !! t)) (spec_slot_ticks slot))
                (times demo_lecture)) = true) as Hall
        by (vm_compute; reflexivity).
      apply bool_decide_eq_true in Hall. rewrite Forall_forall in Hall.
      specialize (Hall slot Hslot). rewrite Forall_forall in Hall.
      by apply Hall, elem_of_slot_ticks.
    + exists subjects', newsched. destruct (Hspec _ _ Hmat) as [Htwo _].
      split_and!; [exact Hmat|exact Htwo|].
      assert ((spec_two_passes [demo_lecture] [[true; false]]).2 =
              [mark_allocated (mark_allocated demo_lecture (480, 570))
                              (1920, 2010)]) as Hsubs by reflexivity.
      rewrite Htwo in Hsubs. simpl in Hsubs. rewrite Hsubs. reflexivity.
Defined.

(** ** The scenarios of the specification, run on the code *)

(** One UE subject with two times that do not overlap: two schedules, both
    complete, no duplicate. *)
Example one_exercise :
  holds_after (solve 10 [demo_exercise])
              (λ st, bool_decide (summary st = (2, 0, 0)%nat)) = true.
Proof. vm_compute. reflexivity. Qed.

(** One VO subject with two times that do not overlap: its three tuples
    give the same table, saved once and counted twice as a duplicate. *)
Example one_lecture :
  holds_after (solve 10 [demo_lecture])
              (λ st, bool_decide (summary st = (1, 0, 2)%nat)) = true.
Proof. vm_compute. reflexivity. Qed.

(** Two UE subjects whose only time is the same: nothing is saved. *)
Example two_exercises_in_conflict :
  holds_after (solve 10 [mkSubject "first" UE [hour 0 8] ∅;
                         mkSubject "second" UE [hour 0 8] ∅])
              (λ st, bool_decide (summary st = (0, 0, 0)%nat)) = true.
Proof. vm_compute. reflexivity. Qed.

(** A lecture that loses one of its two times to an exercise listed before
    it: the schedule is saved as incomplete. *)
Example lecture_left_incomplete :
  holds_after (solve 10 [mkSubject "first" UE [hour 0 8] ∅;
                         mkSubject "second" VO [hour 0 8; hour 1 8] ∅])
              (λ st, bool_decide (summary st = (1, 1, 2)%nat)) = true.
Proof. vm_compute. reflexivity. Qed.

(** A time outside the weekly table, here on Saturday, makes [is_free]
    read a missing key. *)
Example saturday_raises_KeyError :
  solve 10 [mkSubject "weekend" UE [hour 5 8] ∅] = Raise KeyError.
Proof. vm_compute. reflexivity. Qed.

(** The order of the tuples: [True] comes first in the pool, the rightmost
    position varies fastest. *)
Example cursor_order :
  __array (Allocation_init demo_exercise)
    = [[true; false]; [false; true]] ∧
  __array (Allocation_init demo_lecture)
    = [[true; true]; [true; false]; [false; true]].
Proof. split; reflexivity. Qed.

(** * Further properties of the code *)

(** ** Cursors stay on their tuples *)

Lemma advance_array (a : Allocation) : __array (advance a) = __array a.
Proof. unfold advance. by case_bool_decide. Qed.

Lemma reverse_array (a : Allocation) : __array (reverse a) = __array a.
Proof. unfold reverse. by case_bool_decide. Qed.

Lemma method_array (f : Allocation → Allocation) (a : Allocation) :
  f = advance ∨ f = reverse ∨ f = reset_end_status →
  __array (f a) = __array a.
Proof.
  intros [->|[->| ->]]; [apply advance_array|apply reverse_array|done].
Qed.

Lemma method_in_range (f : Allocation → Allocation) (a : Allocation) :
  f = advance ∨ f = reverse ∨ f = reset_end_status →
  in_range a → in_range (f a).
Proof.
  unfold in_range. intros [->|[->| ->]] Ha; [| |done].
  - unfold advance. case_bool_decide; simpl; lia.
  - unfold reverse. case_bool_decide; simpl; lia.
Qed.

Lemma get_array_in_range (a : Allocation) :
  in_range a → ∃ v, get_array a = Ok v ∧ v ∈ __array a.
Proof.
  intros [v Hv]%lookup_lt_is_Some_2. exists v. split.
  - by apply getitem_Ok.
  - by eapply list_elem_of_lookup_2.
Qed.

Lemma current_arrays_in_range (allocations : list Allocation) :
  Forall in_range allocations →
  ∃ p, current_arrays allocations = Ok p ∧
       Forall2 (λ v a, v ∈ __array a) p allocations.
Proof.
  induction 1 as [|a l Ha _ (p & Hp & Hin)]; simpl.
  - exists []. by split; [|constructor].
  - destruct (get_array_in_range a Ha) as (v & -> & Hv). simpl.
    rewrite Hp. simpl. exists (v :: p). by split; [|constructor].
Qed.

(** ** The product of a list of pools *)

Lemma elem_of_product_general {A} (result : list (list A))
    (pools : list (list A)) (v : list A) :
  v ∈ foldl extend result pools ↔
  ∃ x w, x ∈ result ∧ Forall2 (λ y pool, y ∈ pool) w pools ∧ v = x ++ w.
Proof.
  revert result. induction pools as [|pool pools IH]; intros result; simpl.
  - split.
    + intros Hv. exists v, []. split_and!; [done|constructor|].
      by rewrite app_nil_r.
    + intros (x & w & Hx & ->%Forall2_nil_inv_r & ->). by rewrite app_nil_r.
  - rewrite IH. split.
    + intros (x' & w & (x & y & Hx & Hy & ->)%elem_of_extend & Hw & ->).
      exists x, (y :: w). rewrite <-(assoc_L (++)). simpl.
      split_and!; [done|by constructor|done].
    + intros (x & w & Hx & Hw & ->).
      apply Forall2_cons_inv_r in Hw as (y & w' & Hy & Hw' & ->).
      exists (x ++ [y]), w'. rewrite <-(assoc_L (++)). simpl.
      split_and!; [|done..]. apply elem_of_extend. by exists x, y.
Qed.

Lemma elem_of_product {A} (pools : list (list A)) (v : list A) :
  v ∈ product pools ↔ Forall2 (λ y pool, y ∈ pool) v pools.
Proof.
  unfold product. rewrite elem_of_product_general. split.
  - by intros (x & w & ->%list_elem_of_singleton & Hw & ->).
  - intros Hv. exists [], v. split_and!; [by left|done..].
Qed.

Lemma length_extend {A} (result : list (list A)) (pool : list A) :
  length (extend result pool) = (length result * length pool)%nat.
Proof.
  unfold extend.
  assert (∀ x : list A, length (pool ≫= λ y, [x ++ [y]]) = length pool)
    as Hrow.
  { intros x. induction pool as [|y pool IHp]; [done|].
    rewrite bind_cons. simpl. by rewrite IHp. }
  induction result as [|x result IH]; [done|].
  rewrite bind_cons, length_app, IH, Hrow. simpl. lia.
Qed.

Lemma length_product_general {A} (result : list (list A))
    (pools : list (list A)) :
  length (foldl extend result pools) =
    (length result * foldr Nat.mul 1 (length <$> pools))%nat.
Proof.
  revert result. induction pools as [|pool pools IH]; intros result.
  - simpl. lia.
  - rewrite fmap_cons. cbn [foldl foldr]. rewrite IH, length_extend. nia.
Qed.

Lemma length_product {A} (pools : list (list A)) :
  length (product pools) = foldr Nat.mul 1%nat (length <$> pools).
Proof. unfold product. rewrite length_product_general. simpl. lia. Qed.

(** ** How the loops end *)

Lemma ends_with_mono {A} (Q Q' : A → Prop) (E E' : exn → Prop) (r : res A) :
  (∀ a, Q a → Q' a) → (∀ e, E e → E' e) →
  ends_with Q E r → ends_with Q' E' r.
Proof. intros HQ HE. destruct r; simpl; auto. Qed.

Lemma ends_with_bind {A B} (Q1 : A → Prop) (Q : B → Prop) (E : exn → Prop)
    (m : res A) (f : A → res B) :
  ends_with Q1 E m → (∀ a, Q1 a → ends_with Q E (f a)) →
  ends_with Q E (m ≫= f).
Proof. destruct m; simpl; auto. Qed.

Lemma for_each_ends_with {A S} (Q : S → Prop) (E : exn → Prop) (l : list A)
    (body : A → S → res S) (s : S) :
  (∀ x s1, x ∈ l → Q s1 → ends_with Q E (body x s1)) →
  Q s → ends_with Q E (for_each l body s).
Proof.
  revert s. induction l as [|x l IH]; intros s Hbody Hs; simpl; [done|].
  eapply ends_with_bind; [apply Hbody; [by left|done]|].
  intros s1 Hs1. apply IH; [|done]. intros y s2 Hy. apply Hbody. by right.
Qed.

Lemma is_free_cases (g : gmap Z string) (slot : Z * Z) :
  ends_with (λ _, True) (λ e, e = KeyError) (is_free g slot).
Proof.
  unfold is_free.
  destruct (is_free_loop_cases (Z.to_nat (slot.2 - slot.1)) g slot.1 slot.2)
    as [[b ->]| ->]; done.
Qed.

Section only_KeyError.
Context (subjects0 : list Subject) (allocations : list Allocation)
        (vectors : list (list bool)).
Hypothesis Hvectors : Forall2 (λ a v, get_array a = Ok v) allocations vectors.
Hypothesis Hlong :
  Forall2 (λ s v, length (times s) ≤ length v)%nat subjects0 vectors.

Lemma first_pass_slot_ends i j st s :
  reset <$> st.1 = reset <$> subjects0 →
  st.1 !! i = Some s → (j < length (times s))%nat →
  ends_with (λ st', st' = st ∨ step allocations st st') (λ e, e = KeyError)
            (first_pass_slot allocations i j st).
Proof.
  intros Hstatic Hi Hj.
  destruct (static_lookup _ _ _ _ Hstatic Hi) as (s0 & Hi0 & _ & _ & Htm).
  destruct (Forall2_lookup_l _ _ _ _ _ Hlong Hi0) as (v & Hv & Hlen).
  destruct (Forall2_lookup_r _ _ _ _ _ Hvectors Hv) as (a & Ha & Harr).
  destruct (lookup_lt_is_Some_2 v j) as [b Hb]; [rewrite Htm in Hlen; lia|].
  destruct (lookup_lt_is_Some_2 (times s) j) as [slot Hslot]; [done|].
  destruct st as [subjects g]. simpl in Hi.
  destruct (first_pass_slot allocations i j (subjects, g)) as [st'|e] eqn:Hrun.
  { simpl. by eapply first_pass_slot_step. }
  simpl. unfold first_pass_slot, getitem in Hrun.
  rewrite Ha in Hrun. simpl in Hrun. rewrite Harr in Hrun. simpl in Hrun.
  unfold getitem in Hrun. rewrite Hb in Hrun. simpl in Hrun.
  destruct b; [|done]. rewrite Hi in Hrun. simpl in Hrun.
  unfold getitem in Hrun. rewrite Hslot in Hrun. simpl in Hrun.
  pose proof (is_free_cases g slot) as Hfree.
  destruct (is_free g slot) as [free|e']; simpl in *.
  - by destruct free.
  - by injection Hrun as <-.
Qed.

Lemma step_or_same_static st st' :
  reset <$> st.1 = reset <$> subjects0 →
  st' = st ∨ step allocations st st' →
  reset <$> st'.1 = reset <$> subjects0.
Proof.
  intros Hstatic [->|Hstep]; [done|]. by rewrite (step_static _ _ _ Hstep).
Qed.

Lemma static_same_times st st' i s :
  st.1 !! i = Some s → st' = st ∨ step allocations st st' →
  ∃ s', st'.1 !! i = Some s' ∧ times s' = times s ∧ type s' = type s.
Proof.
  intros Hi [->|Hstep]; [by exists s|]. apply step_static in Hstep.
  destruct (lookup_lt_is_Some_2 st'.1 i) as [s' Hs'].
  { apply (f_equal length) in Hstep. rewrite !length_fmap in Hstep.
    rewrite Hstep. by eapply lookup_lt_Some. }
  exists s'. split; [done|].
  destruct (static_lookup _ _ _ _ Hstep Hs') as (s1 & Hs1 & _ & <- & <-).
  rewrite Hi in Hs1. by injection Hs1 as <-.
Qed.

Lemma first_pass_ends st :
  reset <$> st.1 = reset <$> subjects0 →
  ends_with (λ st', reset <$> st'.1 = reset <$> subjects0)
            (λ e, e = KeyError) (first_pass allocations st).
Proof.
  intros Hstatic. unfold first_pass.
  assert (length st.1 = length subjects0) as Hlen.
  { apply (f_equal length) in Hstatic. by rewrite !length_fmap in Hstatic. }
  apply for_each_ends_with; [|done].
  intros i st1 [_ Hi]%elem_of_seq Hst1. unfold first_pass_subject.
  assert (length st1.1 = length subjects0) as Hlen1.
  { apply (f_equal length) in Hst1. by rewrite !length_fmap in Hst1. }
  destruct (lookup_lt_is_Some_2 st1.1 i) as [s Hs]; [lia|].
  unfold getitem. rewrite Hs. simpl.
  eapply ends_with_mono; [| |apply (for_each_ends_with
    (λ st2, reset <$> st2.1 = reset <$> subjects0 ∧
            ∃ s2, st2.1 !! i = Some s2 ∧ times s2 = times s))].
  - by intros st2 [? _].
  - done.
  - intros j st3 [_ Hj]%elem_of_seq (Hst3 & s3 & Hs3 & Htm).
    eapply ends_with_mono;
      [| |apply (first_pass_slot_ends i j st3 s3); [done..|rewrite Htm; lia]].
    + intros st4 Hstep. split; [by eapply step_or_same_static|].
      destruct (static_same_times _ _ _ _ Hs3 Hstep) as (s4 & ? & ? & _).
      exists s4. split; [done|congruence].
    + done.
  - eauto.
Qed.

Lemma second_pass_slot_ends i slot st s :
  st.1 !! i = Some s → type s = VO → slot ∈ times s →
  ends_with (λ st', st' = st ∨ step allocations st st') (λ e, e = KeyError)
            (second_pass_slot i slot st).
Proof.
  intros Hi Hvo Hslot.
  destruct (second_pass_slot i slot st) as [st'|e] eqn:Hrun.
  { simpl. eapply second_pass_slot_step; [|done].
    intros s' Hs'. rewrite Hi in Hs'. by injection Hs' as <-. }
  simpl. destruct st as [subjects g]. simpl in Hi.
  unfold second_pass_slot, getitem in Hrun. rewrite Hi in Hrun.
  simpl in Hrun. case_bool_decide; [|done].
  pose proof (is_free_cases g slot) as Hfree.
  destruct (is_free g slot) as [free|e']; simpl in *.
  - by destruct free.
  - by injection Hrun as <-.
Qed.

Lemma second_pass_ends st :
  reset <$> st.1 = reset <$> subjects0 →
  ends_with (λ st', reset <$> st'.1 = reset <$> subjects0)
            (λ e, e = KeyError) (second_pass st).
Proof.
  intros Hstatic. unfold second_pass.
  assert (length st.1 = length subjects0) as Hlen.
  { apply (f_equal length) in Hstatic. by rewrite !length_fmap in Hstatic. }
  apply for_each_ends_with; [|done].
  intros i st1 [_ Hi]%elem_of_seq Hst1. unfold second_pass_subject.
  assert (length st1.1 = length subjects0) as Hlen1.
  { apply (f_equal length) in Hst1. by rewrite !length_fmap in Hst1. }
  destruct (lookup_lt_is_Some_2 st1.1 i) as [s Hs]; [lia|].
  unfold getitem. rewrite Hs. simpl.
  destruct (type s) eqn:Hvo; [done|].
  eapply ends_with_mono; [| |apply (for_each_ends_with
    (λ st2, reset <$> st2.1 = reset <$> subjects0 ∧
            ∃ s2, st2.1 !! i = Some s2 ∧ times s2 = times s ∧
                  type s2 = VO))].
  - by intros st2 [? _].
  - done.
  - intros slot st3 Hslot (Hst3 & s3 & Hs3 & Htm & Hvo3).
    eapply ends_with_mono;
      [| |apply (second_pass_slot_ends i slot st3 s3);
          [done|done|by rewrite Htm]].
    + intros st4 Hstep. split; [by eapply step_or_same_static|].
      destruct (static_same_times _ _ _ _ Hs3 Hstep) as (s4 & ? & ? & ?).
      exists s4. split_and!; [done|congruence..].
    + done.
  - eauto 10.
Qed.

(** [create_schedule] raises nothing but the [KeyError] of a time that
    leaves the weekly table. *)
Lemma materialize_ends :
  ends_with (λ _, True) (λ e, e = KeyError ∧ ¬ on_grid subjects0)
            (materialize subjects0 allocations).
Proof.
  destruct (materialize subjects0 allocations) as [st'|e] eqn:Hrun; [done|].
  simpl. split.
  - unfold materialize in Hrun.
    pose proof (first_pass_ends (subjects0, empty_schedule) eq_refl) as H1.
    destruct (first_pass allocations _) as [st1|e1]; simpl in *;
      [|by injection Hrun as <-].
    pose proof (second_pass_ends st1 H1) as H2.
    destruct (second_pass st1) as [st2|e2]; simpl in *; [done|].
    by injection Hrun as <-.
  - intros Hgrid.
    destruct (materialize_total subjects0 allocations vectors Hvectors Hlong
                Hgrid) as [st' Hst']. congruence.
Qed.
End only_KeyError.

(** ** How [percolate] ends *)

Lemma cursors_of_arrays subjects0 allocations :
  cursors_of subjects0 allocations →
  __array <$> allocations = (λ s, __array (Allocation_init s)) <$> subjects0.
Proof.
  induction 1 as [|s a l k Ha _ IH]; [done|].
  by rewrite !fmap_cons, Ha, IH.
Qed.

Lemma run_invariant_combinations subjects0 st :
  run_invariant subjects0 st →
  combinations st =
    list_to_set (product ((λ s, __array (Allocation_init s)) <$> subjects0)).
Proof.
  intros (_ & Hcur & _). unfold combinations.
  by rewrite (cursors_of_arrays _ _ Hcur).
Qed.

Lemma run_invariant_call_on subjects0 f i st :
  f = advance ∨ f = reverse ∨ f = reset_end_status →
  run_invariant subjects0 st → run_invariant subjects0 (call_on f i st).
Proof.
  intros Hf (Hsub & Hcur & Hin). split_and!; [done|..]; simpl.
  - by apply cursors_of_alter.
  - apply Forall_alter; [done|]. intros a _. by apply method_in_range.
Qed.

Lemma run_invariant_vectors subjects0 st p :
  run_invariant subjects0 st →
  current_arrays (allocations st) = Ok p →
  Forall2 (λ a v, get_array a = Ok v) (allocations st) p ∧
  Forall2 (λ s v, length (times s) ≤ length v)%nat subjects0 p ∧
  p ∈ combinations st.
Proof.
  intros (_ & Hcur & Hin) Hp%current_arrays_Ok. split_and!; [done| |].
  - unfold cursors_of in Hcur. clear Hin. revert p Hp.
    induction Hcur as [|s a l k Ha _ IH]; intros p Hp.
    + apply Forall2_nil_inv_l in Hp as ->. constructor.
    + apply Forall2_cons_inv_l in Hp as (v & p' & Hv & Hp' & ->).
      constructor; [|by apply IH].
      assert (valid_vector s v) as [-> _]; [|done].
      apply elem_of_Allocation_init. rewrite <-Ha.
      apply getitem_Ok in Hv. by eapply list_elem_of_lookup_2.
  - unfold combinations. apply elem_of_list_to_set, elem_of_product.
    apply Forall2_fmap_r, Forall2_flip. eapply Forall2_impl; [done|].
    intros a v Hv%getitem_Ok. by eapply list_elem_of_lookup_2.
Qed.

Lemma evaluate_ends subjects0 st p :
  Forall (λ s, allocated_times s = ∅) subjects0 →
  run_invariant subjects0 st →
  current_arrays (allocations st) = Ok p →
  ends_with
    (λ st1, run_invariant subjects0 st1 ∧
            permutations st1 = {[p]} ∪ permutations st ∧
            (version st1 + duplicates st1 ≤ S (version st + duplicates st))%nat)
    (λ e, e = KeyError ∧ ¬ on_grid subjects0)
    (evaluate (add_permutation st p)).
Proof.
  intros Hreset Hinv Hp.
  destruct (run_invariant_vectors _ _ _ Hinv Hp) as (Hvec & Hlong & _).
  destruct Hinv as (Hsub & Hcur & Hin).
  destruct (evaluate (add_permutation st p)) as [st1|e] eqn:Hrun; simpl.
  - destruct (evaluate_frame _ _ Hrun) as (Hal & Hperm & schedule & Hcreate).
    simpl in *. rewrite Hsub in Hcreate.
    apply create_schedule_Ok in Hcreate as (s1 & g & Hmat & Hsub1 & _).
    destruct (materialize_facts _ _ _ _ Hmat) as (Hstatic & _).
    split_and!.
    + split_and!; [|by rewrite Hal..].
      by rewrite Hsub1, Hstatic, reset_id.
    + done.
    + destruct (evaluate_store _ _ Hrun) as (? & ? & _ & Hcases). simpl in *.
      destruct Hcases as [(_ & _ & -> & ->)|[(_ & _ & _ & -> & ->)|
                          (_ & _ & _ & -> & ->)]]; lia.
  - pose proof (materialize_ends subjects0 (allocations st) p Hvec Hlong)
      as Hmat.
    unfold evaluate, create_schedule in Hrun. simpl in Hrun.
    rewrite Hsub in Hrun.
    destruct (materialize subjects0 (allocations st)) as [[s1 g]|e1];
      simpl in *.
    + by destruct (negb _ && negb _).
    + by injection Hrun as <-.
Qed.

Lemma run_progress_refl all st : run_progress all st st.
Proof. split_and!; [done..|lia]. Qed.

Lemma run_progress_trans all st1 st2 st3 :
  run_progress all st1 st2 → run_progress all st2 st3 →
  run_progress all st1 st3.
Proof.
  intros (Hsub & Hall & Hcount) (Hsub' & Hall' & Hcount').
  split_and!; [by etrans|auto|lia].
Qed.

Lemma run_progress_call_on all f i st st' :
  run_progress all st st' → run_progress all st (call_on f i st').
Proof. done. Qed.

Lemma remaining_mono subjects0 st st' :
  run_invariant subjects0 st → run_invariant subjects0 st' →
  permutations st ⊆ permutations st' → (remaining st' ≤ remaining st)%nat.
Proof.
  intros Hinv Hinv' Hsub. unfold remaining.
  rewrite (run_invariant_combinations _ _ Hinv),
    (run_invariant_combinations _ _ Hinv').
  apply subseteq_size. intros q [Hq Hnq]%elem_of_difference.
  apply elem_of_difference. split; [done|]. intros Hq'. by apply Hnq, Hsub.
Qed.

Lemma remaining_add subjects0 st st1 p :
  run_invariant subjects0 st → run_invariant subjects0 st1 →
  p ∈ combinations st → p ∉ permutations st →
  permutations st1 = {[p]} ∪ permutations st →
  (S (remaining st1) ≤ remaining st)%nat.
Proof.
  intros Hinv Hinv1 Hp Hnew Hperm. unfold remaining. rewrite Hperm.
  rewrite (run_invariant_combinations _ _ Hinv) in *.
  rewrite (run_invariant_combinations _ _ Hinv1).
  apply subset_size. apply elem_of_subset. split.
  - intros q [Hq Hnq]%elem_of_difference. apply elem_of_difference.
    split; [done|]. intros Hq'. apply Hnq, elem_of_union. by right.
  - intros Hsup. pose proof (Hsup p) as Hp'.
    rewrite !elem_of_difference in Hp'. destruct Hp' as [_ Hnp]; [done|].
    apply Hnp, elem_of_union. left. by apply elem_of_singleton.
Qed.

(** The outcome of a call of [percolate] in a run. *)
Lemma percolate_ends (subjects0 : list Subject) (limit : nat) (st : State) :
  Forall (λ s, allocated_times s = ∅) subjects0 →
  run_invariant subjects0 st →
  ends_with
    (λ st', run_invariant subjects0 st' ∧
            run_progress (combinations st) st st')
    (may_raise subjects0 limit (remaining st))
    (percolate limit st).
Proof.
  intros Hreset. revert st.
  induction limit as [|limit IH]; intros st Hinv; simpl; [lia|].
  destruct (list_find _ _) as [[i a]|]; simpl.
  { split; [by apply run_invariant_call_on; auto|].
    apply run_progress_call_on, run_progress_refl. }
  destruct (current_arrays_in_range (allocations st)) as (p & Hp & _);
    [apply Hinv|].
  rewrite Hp. simpl.
  destruct (run_invariant_vectors _ _ _ Hinv Hp) as (_ & _ & Hcomb).
  case_bool_decide as Hnew; simpl; [by split; [|apply run_progress_refl]|].
  eapply ends_with_bind.
  { eapply ends_with_mono; [| |by apply evaluate_ends].
    - intros st1 Hst1. exact Hst1.
    - intros e [-> Hgrid]. exact Hgrid. }
  intros st1 (Hinv1 & Hperm & Hcount).
  -
    assert (run_progress (combinations st) st st1) as Hprog.
    { split_and!.
      - rewrite Hperm. apply union_subseteq_r.
      - rewrite Hperm. intros Hall. apply union_least; [|done].
        by apply singleton_subseteq_l.
      - rewrite Hperm, size_union, size_singleton; [lia|].
        by apply disjoint_singleton_l. }
    pose proof (remaining_add _ _ _ _ Hinv Hinv1 Hcomb Hnew Hperm) as Hrem.
    eapply ends_with_mono;
      [| |apply (for_each_ends_with
            (λ s, run_invariant subjects0 s ∧
                  run_progress (combinations st) st1 s)
            (may_raise subjects0 (S limit) (remaining st)))].
    + intros s [? ?]. split; [done|]. by eapply run_progress_trans.
    + done.
    + intros i s _ [Hinvs Hprogs].
      assert (run_invariant subjects0 (call_on advance i s)) as Hinva
        by (apply run_invariant_call_on; auto).
      eapply ends_with_bind.
      * eapply ends_with_mono; [| |apply (IH _ Hinva)].
        -- intros s' Hs'. exact Hs'.
        -- intros [] He; simpl in *; [done..|].
           assert (remaining (call_on advance i s) ≤ remaining st1)%nat;
             [|lia].
           eapply remaining_mono; [done..|]. apply Hprogs.
      * intros s' [Hinv' Hprog']. simpl. split.
        -- apply run_invariant_call_on; auto.
        -- eapply run_progress_trans; [done|].
           rewrite (run_invariant_combinations _ _ Hinva) in Hprog'.
           rewrite (run_invariant_combinations _ _ Hinv). apply Hprog'.
    + split; [done|apply run_progress_refl].
Qed.

(** ** Runs from the initial state *)

Lemma Allocation_init_in_range (s : Subject) :
  times s ≠ [] → in_range (Allocation_init s).
Proof.
  intros Hne. unfold in_range.
  assert (true :: replicate (length (times s) - 1) false
            ∈ __array (Allocation_init s)) as Hin.
  { apply elem_of_Allocation_init. split.
    - simpl. rewrite length_replicate. destruct (times s); [done|simpl; lia].
    - assert (∀ k, (true :: replicate (length (times s) - 1) false) !! k
                   = Some true → k = 0%nat) as Huniq.
      { intros [|k]; [done|]. simpl.
        by intros [? _]%lookup_replicate. }
      destruct (type s); exists 0%nat; [by split|done]. }
  change (index (Allocation_init s)) with 0%nat.
  destruct (__array (Allocation_init s)); [by apply elem_of_nil in Hin|].
  simpl. lia.
Qed.

Lemma initial_state_invariant (subjects0 : list Subject) :
  Forall (λ s, times s ≠ []) subjects0 →
  run_invariant subjects0 (initial_state subjects0).
Proof.
  intros Htimes. split_and!; [done|apply cursors_of_init|]. simpl.
  apply Forall_fmap. eapply Forall_impl; [done|].
  intros s. apply Allocation_init_in_range.
Qed.

Lemma size_list_to_set_le (l : list (list (list bool))) :
  (size (list_to_set (C := gset (list (list bool))) l) ≤ length l)%nat.
Proof.
  induction l as [|x l IH].
  - rewrite list_to_set_nil, size_empty. done.
  - rewrite list_to_set_cons, length_cons. rewrite size_union_alt, size_singleton.
    pose proof (subseteq_size (list_to_set l ∖ {[x]})
                  (list_to_set (C := gset (list (list bool))) l)) as Hle.
    specialize (Hle ltac:(apply subseteq_difference_l; done)). lia.
Qed.

Lemma combinations_size (subjects0 : list Subject) (st : State) :
  run_invariant subjects0 st →
  (size (combinations st) ≤ combination_count subjects0)%nat.
Proof.
  intros Hinv. rewrite (run_invariant_combinations _ _ Hinv).
  etrans; [apply size_list_to_set_le|].
  rewrite length_product, <-list_fmap_compose. done.
Qed.

Lemma remaining_le (subjects0 : list Subject) (st : State) :
  run_invariant subjects0 st →
  (remaining st ≤ combination_count subjects0)%nat.
Proof.
  intros Hinv. pose proof (combinations_size _ _ Hinv) as Hsize.
  assert (size (combinations st ∖ permutations st) ≤ size (combinations st))%nat
    as Hle by (apply subseteq_size, subseteq_difference_l; done).
  unfold remaining. lia.
Qed.

Lemma elem_of_combinations (subjects0 : list Subject) (st : State)
    (p : list (list bool)) :
  run_invariant subjects0 st →
  p ∈ combinations st ↔ Forall2 (λ v s, valid_vector s v) p subjects0.
Proof.
  intros Hinv. rewrite (run_invariant_combinations _ _ Hinv).
  rewrite elem_of_list_to_set, elem_of_product, Forall2_fmap_r.
  split; intros Hall; (eapply Forall2_impl; [exact Hall|]); intros v s;
    apply elem_of_Allocation_init.
Qed.

Lemma no_times_solve (limit : nat) (subjects0 : list Subject) (s : Subject) :
  s ∈ subjects0 → times s = [] →
  solve (S limit) subjects0 = Raise IndexError.
Proof.
  intros Hin Htimes. unfold solve. simpl. rewrite list_find_init_None.
  rewrite (current_arrays_raises _ (Allocation_init s)); [done| |].
  - by apply list_elem_of_fmap_2.
  - unfold get_array. by rewrite (Allocation_init_no_times s Htimes).
Qed.

(** X1. The exceptions of [create_schedule]. With one cursor per subject
    over the tuples computed for it, each on one of its tuples,
    [create_schedule] raises nothing but [KeyError], and raises it only when
    some instant of some time of a subject is no key of the weekly table:
    reading the cursors and the times never raises [IndexError]. *)
Theorem create_schedule_exceptions (subjects : list Subject)
    (allocations : list Allocation) (e : exn) :
  cursors_of subjects allocations →
  Forall in_range allocations →
  create_schedule subjects allocations = Raise e →
  e = KeyError ∧ ¬ on_grid subjects.
Proof.
  intros Hcur Hin Hrun.
  pose (st := mkState subjects allocations ∅ [] 0%nat 0%nat).
  assert (run_invariant subjects st) as Hinv by done.
  destruct (current_arrays_in_range _ Hin) as (p & Hp & _).
  destruct (run_invariant_vectors subjects st p Hinv Hp) as (Hvec & Hlong & _).
  pose proof (materialize_ends subjects allocations p Hvec Hlong) as Hmat.
  unfold create_schedule in Hrun.
  destruct (materialize subjects allocations) as [[subjects' newsched]|e1];
    [done|].
  simpl in Hrun, Hmat. by injection Hrun as <-.
Qed.

(** A subject with a time on Saturday: the table has no key for it. *)
Lemma create_schedule_exceptions_witness :
  KeyError = KeyError ∧
  ¬ on_grid [mkSubject "weekend" UE [hour 5 8] ∅].
Proof.
  apply (create_schedule_exceptions
           [mkSubject "weekend" UE [hour 5 8] ∅]
           [Allocation_init (mkSubject "weekend" UE [hour 5 8] ∅)]).
  - apply Forall2_cons_2; [reflexivity|apply Forall2_nil_2].
  - apply Forall_cons_2; [|apply Forall_nil_2].
    unfold in_range. simpl. lia.
  - reflexivity.
Defined.

(** X2. The nesting of [percolate]. The [limit] of the traversal counts the
    calls of [percolate] that are open at the same time, and nothing else.
    A limit above the number of combinations is never exhausted: however
    the run ends, no call of [percolate] is nested deeper than the number
    of combinations plus one. *)
Theorem percolate_nesting_bound (limit : nat) (subjects0 : list Subject) :
  Forall (λ s, allocated_times s = ∅) subjects0 →
  (combination_count subjects0 < limit)%nat →
  solve limit subjects0 ≠ Raise RecursionError.
Proof.
  intros Hreset Hlimit Hrun.
  destruct (decide (Forall (λ s, times s ≠ []) subjects0)) as [Htimes|Hempty].
  - pose proof (initial_state_invariant _ Htimes) as Hinv.
    pose proof (percolate_ends subjects0 limit _ Hreset Hinv) as Hends.
    pose proof (remaining_le _ _ Hinv) as Hle.
    unfold solve in Hrun. rewrite Hrun in Hends. simpl in Hends. lia.
  - apply not_Forall_Exists in Hempty; [|apply _].
    apply Exists_exists in Hempty as (s & Hs & Hnone).
    assert (times s = []) as Htimes
      by (destruct (decide (times s = [])) as [|Hne];
          [done|exfalso; exact (Hnone Hne)]).
    destruct limit as [|limit]; [lia|].
    by rewrite (no_times_solve _ _ s Hs Htimes) in Hrun.
Qed.

Lemma percolate_nesting_bound_witness :
  solve 7 [demo_exercise; demo_lecture] ≠ Raise RecursionError.
Proof.
  apply (percolate_nesting_bound 7 [demo_exercise; demo_lecture]).
  - repeat (apply Forall_cons_2; [reflexivity|]). apply Forall_nil_2.
  - vm_compute. lia.
Defined.

(** X3. Every combination is evaluated at most once. When a run returns,
    every entry of the memo set is a tuple of valid vectors, one per
    subject, so that the memo set has no more entries than there are
    combinations; and the saved schedules and the duplicates together are
    no more than the entries of the memo set. *)
Theorem solve_counts (limit : nat) (subjects0 : list Subject) (st : State) :
  Forall (λ s, allocated_times s = ∅) subjects0 →
  solve limit subjects0 = Ok st →
  (∀ p, p ∈ permutations st →
        Forall2 (λ v s, valid_vector s v) p subjects0) ∧
  (length (saved_schedules st) + duplicates st ≤ size (permutations st))%nat ∧
  (size (permutations st) ≤ combination_count subjects0)%nat.
Proof.
  intros Hreset Hrun.
  assert (Forall (λ s, times s ≠ []) subjects0) as Htimes.
  { destruct (decide (Forall (λ s, times s ≠ []) subjects0)) as [|Hempty];
      [done|].
    apply not_Forall_Exists in Hempty; [|apply _].
    apply Exists_exists in Hempty as (s & Hs & Hnone).
    assert (times s = []) as Hs0
      by (destruct (decide (times s = [])) as [|Hne];
          [done|exfalso; exact (Hnone Hne)]).
    destruct limit as [|limit]; [done|].
    by rewrite (no_times_solve _ _ s Hs Hs0) in Hrun. }
  pose proof (initial_state_invariant _ Htimes) as Hinv.
  pose proof (percolate_ends subjects0 limit _ Hreset Hinv) as Hends.
  destruct (percolate_store_distinct _ _ _ Hrun) as (_ & _ & Hver).
  unfold solve in Hrun. rewrite Hrun in Hends.
  destruct Hends as (Hinv' & _ & Hall & Hcount).
  specialize (Hall ltac:(apply empty_subseteq)).
  change (permutations (initial_state subjects0))
    with (∅ : gset (list (list bool))) in Hcount.
  change (version (initial_state subjects0)) with 0%nat in Hcount.
  change (duplicates (initial_state subjects0)) with 0%nat in Hcount.
  rewrite size_empty in Hcount.
  split_and!.
  - intros p Hp. apply (elem_of_combinations subjects0 _ p Hinv). by apply Hall.
  - rewrite <-Hver by reflexivity. lia.
  - etrans; [by apply subseteq_size|]. by apply combinations_size.
Qed.

Lemma solve_counts_witness :
  ∃ st, solve 10 [demo_exercise; demo_lecture] = Ok st ∧
        (size (permutations st) ≤ 6)%nat.
Proof.
  destruct (returns_Ok (solve 10 [demo_exercise; demo_lecture])) as [st Hrun].
  { vm_compute. reflexivity. }
  exists st. split; [exact Hrun|].
  destruct (solve_counts 10 [demo_exercise; demo_lecture] st) as (_ & _ & Hle).
  - repeat (apply Forall_cons_2; [reflexivity|]). apply Forall_nil_2.
  - exact Hrun.
  - exact Hle.
Defined.

(** ** Where a call leaves the cursors *)

Lemma not_after_refl (l : list Allocation) :
  Forall (λ a, has_reached_end a = false) l → Forall2 not_after l l.
Proof.
  intros Hflags. apply Forall2_same_length_lookup. split; [done|].
  intros i a b Ha Hb. assert (b = a) as -> by congruence.
  rewrite Forall_lookup in Hflags. by split_and!; [| |eapply Hflags].
Qed.

Lemma not_after_flags (l l' : list Allocation) :
  Forall2 not_after l l' → Forall (λ a, has_reached_end a = false) l'.
Proof.
  induction 1 as [|a a' l l' (_ & _ & Hflag) _ IH]; by constructor.
Qed.

Lemma list_find_flag_None (l : list Allocation) :
  list_find (λ a, has_reached_end a = true) l = None →
  Forall (λ a, has_reached_end a = false) l.
Proof.
  intros Hnone. rewrite list_find_None in Hnone.
  eapply Forall_impl; [exact Hnone|]. intros a Ha. simpl in Ha.
  by destruct (has_reached_end a).
Qed.

Lemma percolate_cursors (limit : nat) (st st' : State) :
  at_most_one_flag (allocations st) →
  percolate limit st = Ok st' →
  Forall2 not_after (allocations st) (allocations st').
Proof.
  revert st st'. induction limit as [|limit IH]; intros st st' Hone Hrun;
    [done|].
  simpl in Hrun.
  destruct (list_find _ (allocations st)) as [[i a]|] eqn:Hfind.
  - injection Hrun as <-. apply list_find_Some in Hfind as (Hi & Hflag & _).
    apply Forall2_same_length_lookup. split.
    { simpl. by rewrite length_alter. }
    intros j b b' Hb Hb'. simpl in Hb'.
    destruct (decide (i = j)) as [<-|Hne].
    + rewrite list_lookup_alter_eq, Hb in Hb'. simpl in Hb'. injection Hb' as <-.
      by split_and!.
    + rewrite list_lookup_alter_ne in Hb' by done.
      assert (b' = b) as -> by congruence. split_and!; [done..|].
      destruct (has_reached_end b) eqn:Hflagb; [|done].
      by destruct Hne; apply (Hone i j a b).
  - apply list_find_flag_None in Hfind.
    destruct (current_arrays (allocations st)) as [perm_check|] eqn:Harrays;
      [|done].
    simpl in Hrun. case_bool_decide.
    { injection Hrun as <-. by apply not_after_refl. }
    apply bind_Ok in Hrun as (st1 & Heval & Hloop).
    apply evaluate_frame in Heval as (Hallocs & _). simpl in Hallocs.
    revert Hloop.
    apply (for_each_invariant
             (λ s, Forall2 not_after (allocations st) (allocations s))).
    + intros i s1 s2 _ Hs1 Hbody.
      apply bind_Ok in Hbody as (s & Hcall & [= <-]).
      pose proof (not_after_flags _ _ Hs1) as Hflags1.
      rewrite Forall_lookup in Hflags1.
      apply IH in Hcall.
      * apply Forall2_same_length_lookup in Hs1 as [Hlen1 Hs1].
        apply Forall2_same_length_lookup in Hcall as [Hlen2 Hcall].
        simpl in Hlen2, Hcall. rewrite length_alter in Hlen2.
        apply Forall2_same_length_lookup. split.
        { simpl. rewrite length_alter. congruence. }
        intros j a0 a3 Ha0 Ha3. simpl in Ha3.
        destruct (lookup_lt_is_Some_2 (allocations s1) j) as [a1 Ha1].
        { rewrite <-Hlen1. by eapply lookup_lt_Some. }
        destruct (lookup_lt_is_Some_2 (allocations s) j) as [a2 Ha2].
        { rewrite <-Hlen2, <-Hlen1. by eapply lookup_lt_Some. }
        destruct (Hs1 j a0 a1 Ha0 Ha1) as (Harr1 & Hidx1 & Hflag1).
        destruct (decide (i = j)) as [<-|Hne].
        -- rewrite list_lookup_alter_eq, Ha2 in Ha3. simpl in Ha3.
           injection Ha3 as <-.
           destruct (Hcall i (advance a1) a2) as (Harr2 & Hidx2 & Hflag2);
             [by rewrite list_lookup_alter_eq, Ha1|done|].
           assert (index (advance a1) ≤ index a1 + 1)%nat as Hadv
             by (unfold advance; case_bool_decide; simpl; lia).
           assert (__array (advance a1) = __array a1) as Harr
             by (unfold advance; by case_bool_decide).
           unfold not_after, reverse. case_bool_decide; simpl.
           ++ split_and!; [congruence|lia|done].
           ++ split_and!; [congruence|lia|done].
        -- rewrite list_lookup_alter_ne in Ha3 by done.
           assert (a3 = a2) as -> by congruence.
           destruct (Hcall j a1 a2) as (Harr2 & Hidx2 & Hflag2);
             [by rewrite list_lookup_alter_ne|done|].
           unfold not_after. split_and!; [congruence|lia|done].
      * intros j k a b Ha Hb Hflaga Hflagb. simpl in Ha, Hb.
        assert (∀ j a, alter advance i (allocations s1) !! j = Some a →
                       has_reached_end a = true → j = i) as Hat.
        { clear -Hflags1. intros j a Ha Hflag.
          destruct (decide (i = j)) as [|Hne]; [done|].
          rewrite list_lookup_alter_ne in Ha by done.
          by rewrite (Hflags1 j a Ha) in Hflag. }
        rewrite (Hat j a Ha Hflaga), (Hat k b Hb Hflagb). done.
    + rewrite Hallocs. by apply not_after_refl.
Qed.

Lemma Allocation_init_start (subjects0 : list Subject) (i : nat)
    (a : Allocation) :
  (Allocation_init <$> subjects0) !! i = Some a →
  index a = 0%nat ∧ has_reached_end a = false.
Proof.
  rewrite list_lookup_fmap. destruct (subjects0 !! i); [|done].
  by intros [= <-].
Qed.

(** X4. The traversal restores the cursors. When a run returns, every
    cursor is back on its first tuple with its end flag down: the cursor
    list is the one the run started with. *)
Theorem solve_restores_cursors (limit : nat) (subjects0 : list Subject)
    (st : State) :
  solve limit subjects0 = Ok st →
  allocations st = Allocation_init <$> subjects0.
Proof.
  intros Hrun. apply percolate_cursors in Hrun.
  - change (allocations (initial_state subjects0))
      with (Allocation_init <$> subjects0) in Hrun.
    apply Forall2_same_length_lookup in Hrun as [Hlen Hrun].
    apply list_eq_same_length with (length (allocations st)); [done..|].
    intros i a' a _ Ha' Ha.
    destruct (Hrun i a a' Ha Ha') as (Harr & Hidx & Hflag).
    destruct (Allocation_init_start _ _ _ Ha) as [Hzero Hdown].
    destruct a, a'. simpl in *. f_equal; [lia|congruence|done].
  - intros i j a b Ha _ Hflag _.
    destruct (Allocation_init_start _ _ _ Ha) as [_ Hdown]. congruence.
Qed.

Lemma solve_restores_cursors_witness :
  ∃ st, solve 10 [demo_exercise; demo_lecture] = Ok st ∧
        allocations st = Allocation_init <$> [demo_exercise; demo_lecture].
Proof.
  destruct (returns_Ok (solve 10 [demo_exercise; demo_lecture])) as [st Hrun].
  { vm_compute. reflexivity. }
  exists st. split; [exact Hrun|].
  exact (solve_restores_cursors 10 [demo_exercise; demo_lecture] st Hrun).
Defined.

(** ** More on the cursor, the freeness check and the fill *)

(** X5. [advance] followed by [reverse] gives back the cursor, except on
    the last entry: there [advance] only raises the flag, and once
    [percolate] has lowered it [reverse] still steps back, so that the
    cursor ends one entry before where it was (or on the first entry). *)
Theorem advance_then_reverse (self : Allocation) :
  ((index self + 1 < length (__array self))%nat →
   reverse (advance self) = self) ∧
  ((length (__array self) ≤ index self + 1)%nat →
   reverse (reset_end_status (advance self))
     = mkAllocation (index self - 1) false (__array self)).
Proof.
  destruct self as [i e arr]. simpl. split; intros Hi.
  - assert (advance (mkAllocation i e arr) = mkAllocation (i + 1) e arr) as ->.
    { unfold advance. simpl. by rewrite bool_decide_eq_true_2 by lia. }
    unfold reverse. simpl. rewrite bool_decide_eq_true_2 by lia.
    f_equal. lia.
  - assert (advance (mkAllocation i e arr) = mkAllocation i true arr) as ->.
    { unfold advance. simpl. by rewrite bool_decide_eq_false_2 by lia. }
    unfold reverse, reset_end_status. simpl.
    case_bool_decide; [done|]. f_equal. lia.
Qed.

Lemma advance_then_reverse_witness :
  reverse (advance (mkAllocation 0 false [[true; false]; [false; true]]))
    = mkAllocation 0 false [[true; false]; [false; true]] ∧
  reverse (reset_end_status
             (advance (mkAllocation 1 false [[true; false]; [false; true]])))
    = mkAllocation 0 false [[true; false]; [false; true]].
Proof.
  split.
  - apply (proj1 (advance_then_reverse
                    (mkAllocation 0 false [[true; false]; [false; true]]))).
    simpl. lia.
  - apply (proj2 (advance_then_reverse
                    (mkAllocation 1 false [[true; false]; [false; true]]))).
    simpl. lia.
Defined.

Lemma is_free_loop_first (n : nat) (g : gmap Z string) (t0 stop t : Z) :
  (Z.to_nat (stop - t0) ≤ n)%nat →
  on_tick (t0, stop) t →
  g !! t ≠ Some ""%string →
  (∀ t', on_tick (t0, stop) t' → t' < t → g !! t' = Some ""%string) →
  is_free_loop n g t0 stop =
    match g !! t with Some _ => Ok false | None => Raise KeyError end.
Proof.
  revert t0. induction n as [|n IH]; intros t0 Hn Hon Hbad Hbefore.
  { destruct Hon as [Hon _]. simpl in Hon. lia. }
  assert (t0 < stop) as Hlt by (destruct Hon as [Hon _]; simpl in Hon; lia).
  simpl. rewrite bool_decide_eq_true_2 by done.
  apply (on_tick_step _ _ _ Hlt) in Hon as Hcases.
  destruct Hcases as [->|Hnext].
  - destruct (g !! t0) as [v|]; [|done].
    assert (truthy v = true) as -> by (apply truthy_true; congruence). done.
  - assert (t0 < t) by (destruct Hnext as [Hnext _]; simpl in Hnext; lia).
    rewrite (Hbefore t0); [|apply on_tick_step; auto|done]. simpl.
    apply IH; [lia|done|done|].
    intros t' Hon' Hlt'. apply Hbefore; [|done].
    apply on_tick_step; auto.
Qed.

(** X6. [is_free] answers by the first instant of the slot that is not an
    empty key of the table. When that instant holds a name the slot is
    reported occupied; when it is no key of the table the call raises
    [KeyError], whatever the instants after it hold. *)
Theorem is_free_first_offender (g : gmap Z string) (selected_time : Z * Z)
    (t : Z) :
  on_tick selected_time t →
  g !! t ≠ Some ""%string →
  (∀ t', on_tick selected_time t' → t' < t → g !! t' = Some ""%string) →
  is_free g selected_time =
    match g !! t with Some _ => Ok false | None => Raise KeyError end.
Proof. destruct selected_time. by apply is_free_loop_first. Qed.

(** Friday 19:00 to 21:00: the table ends at 20:00. *)
Lemma is_free_first_offender_witness :
  is_free empty_schedule (datetime (day0 + 4) 19 0, datetime (day0 + 4) 21 0)
    = Raise KeyError.
Proof.
  apply (is_free_first_offender empty_schedule
           (datetime (day0 + 4) 19 0, datetime (day0 + 4) 21 0)
           (datetime (day0 + 4) 20 0)).
  - apply (bool_decide_unpack _). vm_compute. exact I.
  - vm_compute. discriminate.
  - intros t' Hon Hlt.
    assert (bool_decide (Forall (λ t', t' < datetime (day0 + 4) 20 0 →
              empty_schedule !! t' = Some ""%string)
              (spec_slot_ticks (datetime (day0 + 4) 19 0,
                                datetime (day0 + 4) 21 0))) = true) as Hall
      by (vm_compute; reflexivity).
    apply bool_decide_eq_true in Hall. rewrite Forall_forall in Hall.
    apply Hall; [|done]. by apply elem_of_slot_ticks.
Defined.

(** X7. Once a subject with a non-empty name has been written to a slot, no
    slot that shares an instant with it is reported free. *)
Theorem fill_then_not_free (g : gmap Z string) (subject : Subject)
    (selected_time other : Z * Z) (t : Z) :
  name subject ≠ ""%string →
  on_tick selected_time t → on_tick other t →
  is_free (fill g subject selected_time) other ≠ Ok true.
Proof.
  intros Hname Hon Hon' Hfree. rewrite is_free_true in Hfree.
  specialize (Hfree t Hon'). rewrite fill_lookup in Hfree.
  rewrite decide_True in Hfree by done. congruence.
Qed.

Lemma fill_then_not_free_witness :
  is_free (fill empty_schedule demo_lecture (hour 0 8)) (hour 0 8) ≠ Ok true.
Proof.
  apply (fill_then_not_free empty_schedule demo_lecture (hour 0 8) (hour 0 8)
           (datetime day0 8 0)).
  - discriminate.
  - apply (bool_decide_unpack _). vm_compute. exact I.
  - apply (bool_decide_unpack _). vm_compute. exact I.
Defined.

(** ** The table of a schedule *)

Lemma empty_schedule_lookup (t : Z) :
  empty_schedule !! t = if decide (in_week t) then Some ""%string else None.
Proof.
  assert (bool_decide (Forall (λ kv : Z * string,
            in_week kv.1 ∧ kv.2 = ""%string) (map_to_list empty_schedule))
          = true) as Hkeys by (vm_compute; reflexivity).
  assert (bool_decide (Forall (λ t, in_week t →
            is_Some (empty_schedule !! t)) (seqZ 0 (5 * 24 * 60))) = true)
    as Hweek by (vm_compute; reflexivity).
  apply bool_decide_eq_true in Hkeys, Hweek.
  rewrite Forall_forall in Hkeys. rewrite Forall_forall in Hweek.
  destruct (empty_schedule !! t) as [v|] eqn:Hlookup.
  - apply elem_of_map_to_list in Hlookup.
    destruct (Hkeys _ Hlookup) as [Hin Hv]. simpl in Hin, Hv. subst v.
    by rewrite decide_True.
  - destruct (decide (in_week t)) as [Hin|]; [|done].
    destruct (Hweek t) as [v Hv]; [|done|congruence].
    apply elem_of_seqZ. destruct Hin as [? _]. lia.
Qed.

(** X8. The keys of the empty table are the instants
    [datetime(year, month, day, hh, mm)] for the five days from [day0], the
    hours from [start_of_day] to [end_of_day] (excluded) and the minutes
    0, 5, ..., 55, and nothing else; every one of them holds the empty
    string. *)
Theorem empty_schedule_keys (t : Z) :
  (is_Some (empty_schedule !! t) ↔
   ∃ day hh mm,
     day0 ≤ day < day0 + 5 ∧ start_of_day ≤ hh < end_of_day ∧
     0 ≤ mm < 60 ∧ mm `mod` 5 = 0 ∧ t = datetime day hh mm) ∧
  (∀ v, empty_schedule !! t = Some v → v = ""%string).
Proof.
  rewrite empty_schedule_lookup. unfold in_week, datetime, day0, start_of_day,
    end_of_day. split.
  - destruct (decide _) as [Hin|Hout]; split.
    + intros _. exists (2 + t `div` 1440), ((t `mod` 1440) `div` 60), (t `mod` 60).
      split_and!; try (Z.div_mod_to_equations; lia).
    + by eexists.
    + by intros [? [=]].
    + intros (day & hh & mm & Hday & Hhh & Hmm & Hfive & ->).
      destruct Hout. split_and!; try (Z.div_mod_to_equations; lia).
  - destruct (decide _); congruence.
Qed.

Lemma fill_dom (g : gmap Z string) (subject : Subject)
    (selected_time : Z * Z) :
  is_free g selected_time = Ok true →
  dom (fill g subject selected_time) = dom g.
Proof.
  intros Hfree. rewrite is_free_true in Hfree.
  apply set_eq. intros t. rewrite !elem_of_dom, fill_lookup.
  destruct (decide (on_tick selected_time t)) as [Hon|]; [|done].
  rewrite (Hfree t Hon). split; by eexists.
Qed.

Lemma steps_dom allocations st st' :
  rtc (step allocations) st st' → dom st'.2 = dom st.2.
Proof.
  induction 1 as [|st1 st2 st3 Hstep _ IH]; [done|]. rewrite IH.
  destruct (step_inv _ _ _ Hstep) as (i & subject & slot & _ & _ & Hfree & ->).
  by apply fill_dom.
Qed.

(** X9. [create_schedule] neither adds a key to the table nor removes one:
    a table it returns has exactly the keys of the empty table. *)
Theorem create_schedule_keeps_keys (subjects : list Subject)
    (allocations : list Allocation) (subjects'' : list Subject)
    (schedule : Schedule) (newsched : gmap Z string) :
  create_schedule subjects allocations = Ok (subjects'', schedule) →
  table schedule = Some newsched →
  dom newsched = dom empty_schedule.
Proof.
  intros Hcreate Htable.
  apply create_schedule_Ok in Hcreate as (subjects' & g & Hmat & _ & ->).
  simpl in Htable. destruct (foldl _ _ _).2; [done|]. injection Htable as ->.
  apply materialize_steps in Hmat. by apply steps_dom in Hmat.
Qed.

Lemma create_schedule_keeps_keys_witness :
  ∃ subjects'' schedule newsched,
    create_schedule [demo_lecture] [Allocation_init demo_lecture]
      = Ok (subjects'', schedule) ∧
    table schedule = Some newsched ∧
    dom newsched = dom empty_schedule.
Proof.
  destruct (holds_after_true
              (create_schedule [demo_lecture] [Allocation_init demo_lecture])
              (λ r, bool_decide (is_Some (table r.2))))
    as ([subjects'' schedule] & Hcreate & Htable).
  { vm_compute. reflexivity. }
  apply bool_decide_eq_true in Htable as [newsched Htable].
  exists subjects'', schedule, newsched. split_and!; [exact Hcreate|exact Htable|].
  exact (create_schedule_keeps_keys _ _ _ _ _ Hcreate Htable).
Defined.

Lemma step_written allocations st st' :
  step allocations st st' →
  written_by_allocations st → written_by_allocations st'.
Proof.
  intros Hstep Hwritten t v Hv Hne.
  destruct (step_inv _ _ _ Hstep)
    as (i & subject & slot & Hi & _ & _ & ->). simpl in *.
  rewrite fill_lookup in Hv.
  destruct (decide (on_tick slot t)) as [Hon|_].
  - injection Hv as <-. exists (mark_allocated subject slot), slot.
    split_and!; [|set_solver|done..].
    apply list_elem_of_lookup. exists i.
    rewrite list_lookup_insert_eq; [done|]. by eapply lookup_lt_Some.
  - destruct (Hwritten t v Hv Hne) as (s & slot0 & Hs & Hslot0 & Hon0 & ->).
    apply list_elem_of_lookup in Hs as [k Hk].
    destruct (decide (i = k)) as [<-|Hik].
    + assert (s = subject) as -> by congruence.
      exists (mark_allocated subject slot), slot0.
      split_and!; [|set_solver|done..].
      apply list_elem_of_lookup. exists i.
      rewrite list_lookup_insert_eq; [done|]. by eapply lookup_lt_Some.
    + exists s, slot0. split_and!; [|done..].
      apply list_elem_of_lookup. exists k.
      by rewrite list_lookup_insert_ne.
Qed.

(** X10. [create_schedule] writes nothing but allocations: in the table its
    two passes build, every instant that holds a name lies in a slot that
    was allocated to a subject of that name; all other instants still hold
    the empty string. *)
Theorem materialize_writes_allocations_only (subjects : list Subject)
    (allocations : list Allocation) (subjects' : list Subject)
    (newsched : gmap Z string) (t : Z) (v : string) :
  materialize subjects allocations = Ok (subjects', newsched) →
  newsched !! t = Some v →
  v ≠ ""%string →
  ∃ s selected_time,
    s ∈ subjects' ∧ selected_time ∈ allocated_times s ∧
    on_tick selected_time t ∧ v = name s.
Proof.
  intros Hmat. apply materialize_steps in Hmat.
  assert (written_by_allocations (subjects', newsched)) as Hwritten;
    [|apply Hwritten].
  revert Hmat.
  generalize (subjects', newsched).
  assert (written_by_allocations (subjects, empty_schedule)) as Hstart.
  { intros t' v' Hv' Hne. simpl in Hv'. rewrite empty_schedule_lookup in Hv'.
    destruct (decide _); congruence. }
  revert Hstart. generalize (subjects, empty_schedule).
  intros st Hstart st' Hsteps.
  induction Hsteps as [|st1 st2 st3 Hstep _ IH]; [done|].
  apply IH. by eapply step_written.
Qed.

Lemma materialize_writes_allocations_only_witness :
  ∃ subjects' newsched s selected_time,
    materialize [demo_lecture] [Allocation_init demo_lecture]
      = Ok (subjects', newsched) ∧
    s ∈ subjects' ∧ selected_time ∈ allocated_times s ∧
    on_tick selected_time (datetime day0 8 0) ∧ "lecture"%string = name s.
Proof.
  destruct (holds_after_true
              (materialize [demo_lecture] [Allocation_init demo_lecture])
              (λ r, bool_decide (r.2 !! datetime day0 8 0
                                 = Some "lecture"%string)))
    as ([subjects' newsched] & Hmat & Hlookup).
  { vm_compute. reflexivity. }
  apply bool_decide_eq_true in Hlookup.
  destruct (materialize_writes_allocations_only _ _ _ _ _ _ Hmat Hlookup)
    as (s & selected_time & Hs); [discriminate|].
  exists subjects', newsched, s, selected_time. exact (conj Hmat Hs).
Defined.

(** X11. [create_schedule] leaves no allocation behind: the subjects are the
    ones it was given, each with its set of allocated times empty again,
    whether the schedule is kept or abandoned. *)
Theorem create_schedule_resets (subjects : list Subject)
    (allocations : list Allocation) (subjects'' : list Subject)
    (schedule : Schedule) :
  create_schedule subjects allocations = Ok (subjects'', schedule) →
  subjects'' = reset <$> subjects.
Proof.
  intros Hcreate.
  apply create_schedule_Ok in Hcreate as (subjects' & g & Hmat & -> & _).
  by destruct (materialize_facts _ _ _ _ Hmat) as [-> _].
Qed.

Lemma create_schedule_resets_witness :
  ∃ subjects'' schedule,
    create_schedule [demo_lecture] [Allocation_init demo_lecture]
      = Ok (subjects'', schedule) ∧
    subjects'' = [demo_lecture].
Proof.
  destruct (returns_Ok
              (create_schedule [demo_lecture] [Allocation_init demo_lecture]))
    as [[subjects'' schedule] Hcreate].
  { vm_compute. reflexivity. }
  exists subjects'', schedule. split; [exact Hcreate|].
  exact (create_schedule_resets _ _ _ _ Hcreate).
Defined.

(** ** The number of tuples of a cursor *)

Lemma filter_length_by_elements {A} `{EqDecision A} (P : A → Prop)
    `{∀ x, Decision (P x)} (l k : list A) :
  NoDup l → NoDup k → (∀ x, x ∈ k ↔ P x ∧ x ∈ l) →
  length (filter P l) = length k.
Proof.
  intros Hl Hk Helems. apply Permutation_length, NoDup_Permutation.
  - by apply NoDup_filter.
  - done.
  - intros x. by rewrite list_elem_of_filter, Helems.
Qed.

Lemma one_hot_lookup (n j k : nat) :
  (j < n)%nat →
  <[j := true]> (replicate n false) !! k = Some true ↔ k = j.
Proof.
  intros Hj. destruct (decide (k = j)) as [->|Hne].
  - rewrite list_lookup_insert_eq; [done|]. by rewrite length_replicate.
  - rewrite list_lookup_insert_ne by done. split; [|done].
    by intros [? _]%lookup_replicate.
Qed.

Lemma sum_one_hot (n : nat) (v : list bool) :
  length v = n ∧ sum v = 1 ↔
  v ∈ (λ j, <[j := true]> (replicate n false)) <$> seq 0 n.
Proof.
  rewrite list_elem_of_fmap, sum_one. setoid_rewrite elem_of_seq. split.
  - intros (Hlen & j & Hj & Huniq). exists j.
    pose proof (lookup_lt_Some _ _ _ Hj) as Hlt. split; [|lia].
    apply list_eq_same_length with n;
      [by rewrite length_insert, length_replicate|done|].
    intros k b b' Hk Hb Hb'.
    destruct (decide (k = j)) as [->|Hne].
    + rewrite list_lookup_insert_eq in Hb'
        by (rewrite length_replicate; lia). congruence.
    + rewrite list_lookup_insert_ne in Hb' by done.
      apply lookup_replicate in Hb' as [-> _].
      destruct b; [|done]. by destruct Hne; apply Huniq.
  - intros (j & -> & Hj). split.
    + by rewrite length_insert, length_replicate.
    + exists j. split; [apply one_hot_lookup; [lia|done]|].
      intros k Hk. apply one_hot_lookup in Hk; [done|lia].
Qed.

Lemma NoDup_one_hot (n : nat) :
  NoDup ((λ j, <[j := true]> (replicate n false)) <$> seq 0 n).
Proof.
  apply NoDup_fmap_2_strong; [|apply NoDup_seq].
  intros j k Hj%elem_of_seq Hk%elem_of_seq Heq.
  assert (<[j := true]> (replicate n false) !! k = Some true) as Hlookup.
  { rewrite Heq. apply one_hot_lookup; [lia|done]. }
  apply one_hot_lookup in Hlookup; [done|lia].
Qed.

Lemma any_false (n : nat) (v : list bool) :
  ¬ any v = true ∧ length v = n ↔ v = replicate n false.
Proof.
  rewrite any_true. split.
  - intros [Hnone <-]. apply list_eq_same_length with (length v);
      [by rewrite length_replicate|done|].
    intros k b b' _ Hb [-> _]%lookup_replicate.
    destruct b; [|done]. destruct Hnone. by exists k.
  - intros ->. rewrite length_replicate. split; [|done].
    by intros (j & [? _]%lookup_replicate).
Qed.

(** X12. The number of tuples of a cursor: a UE subject with n times has n
    tuples, one per time; a VO subject with n times has 2^n - 1 tuples,
    every tuple of n booleans but the all-false one. *)
Theorem Allocation_init_count (subject : Subject) :
  length (__array (Allocation_init subject)) =
    match type subject with
    | UE => length (times subject)
    | VO => (2 ^ length (times subject) - 1)%nat
    end.
Proof.
  unfold Allocation_init. simpl. set (n := length (times subject)).
  pose proof (NoDup_product_bool n) as Hprod.
  destruct (type subject).
  - rewrite (filter_length_by_elements _ _
               ((λ j, <[j := true]> (replicate n false)) <$> seq 0 n)).
    + by rewrite length_fmap, length_seq.
    + done.
    + apply NoDup_one_hot.
    + intros v. rewrite <-sum_one_hot, elem_of_product_bool. tauto.
  - pose proof (filter_app_complement (λ v : list bool, any v = true)
                  (product (replicate n [true; false]))) as Hsplit.
    apply Permutation_length in Hsplit. rewrite length_app in Hsplit.
    rewrite (filter_length_by_elements (λ v, ¬ any v = true) _
               [replicate n false]) in Hsplit.
    + rewrite length_product, fmap_replicate in Hsplit. simpl in Hsplit.
      assert (foldr Nat.mul 1%nat (replicate n 2%nat) = (2 ^ n)%nat) as Hpow.
      { clear. induction n as [|n IH]; simpl; [done|]. rewrite IH. lia. }
      rewrite Hpow in Hsplit. lia.
    + done.
    + apply NoDup_singleton.
    + intros v. rewrite list_elem_of_singleton, elem_of_product_bool.
      apply symmetry, any_false.
Qed.

(** ** A single subject *)

Lemma percolate_single (limit : nat) (arr : list (list bool)) :
  NoDup arr →
  ∀ (k : nat) (st st' : State),
    allocations st = [mkAllocation k false arr] →
    (k < length arr)%nat →
    (∀ j vj, (k ≤ j)%nat → arr !! j = Some vj → [vj] ∈ permutations st →
             ∀ j' vj', (j ≤ j')%nat → arr !! j' = Some vj' →
                       [vj'] ∈ permutations st) →
    percolate limit st = Ok st' →
    permutations st ⊆ permutations st' ∧
    ∀ j vj, (k ≤ j)%nat → arr !! j = Some vj → [vj] ∈ permutations st'.
Proof.
  intros Hnodup. induction limit as [|limit IH];
    intros k st st' Hallocs Hk Hclosed Hrun; [done|].
  destruct (lookup_lt_is_Some_2 arr k Hk) as [vk Hvk].
  simpl in Hrun. rewrite Hallocs in Hrun. simpl in Hrun.
  unfold get_array, getitem in Hrun. simpl in Hrun. rewrite Hvk in Hrun.
  simpl in Hrun. case_bool_decide as Hmemo.
  - injection Hrun as <-. split; [done|]. intros j vj Hj Hvj.
    exact (Hclosed k vk (le_n k) Hvk Hmemo j vj Hj Hvj).
  - apply bind_Ok in Hrun as (st1 & Heval & Hloop).
    apply evaluate_frame in Heval as (Hallocs1 & Hperm1 & _).
    simpl in Hallocs1, Hperm1. rewrite Hallocs1, Hallocs in Hloop.
    simpl in Hloop.
    apply bind_Ok in Hloop as (st2 & Hbody & [= <-]).
    apply bind_Ok in Hbody as (s2 & Hcall & [= <-]). simpl.
    destruct (decide (k + 1 < length arr)%nat) as [Hnext|Hlast].
    + apply IH with (k := (k + 1)%nat) in Hcall as [Hsub Hall].
      * simpl in Hsub. rewrite Hperm1 in Hsub.
        split; [by etrans; [apply union_subseteq_r|]|].
        intros j vj Hj Hvj. destruct (decide (j = k)) as [->|Hne].
        -- assert (vj = vk) as -> by congruence.
           by apply Hsub, elem_of_union_l, elem_of_singleton.
        -- apply (Hall j); [lia|done].
      * simpl. rewrite Hallocs1, Hallocs. simpl. unfold advance. simpl.
        by rewrite bool_decide_eq_true_2 by lia.
      * done.
      * simpl. rewrite Hperm1. intros j vj Hj Hvj Hin j' vj' Hj' Hvj'.
        apply elem_of_union in Hin as [Hin|Hin].
        { apply elem_of_singleton in Hin. injection Hin as ->.
          pose proof (NoDup_lookup _ _ _ _ Hnodup Hvj Hvk). lia. }
        apply elem_of_union_r.
        assert (k ≤ j)%nat as Hkj by lia.
        exact (Hclosed j vj Hkj Hvj Hin j' vj' Hj' Hvj').
    + assert (allocations (call_on advance 0 st1)
              = [mkAllocation k true arr]) as Hflag.
      { simpl. rewrite Hallocs1, Hallocs. simpl. unfold advance. simpl.
        by rewrite bool_decide_eq_false_2 by lia. }
      destruct limit as [|limit]; [done|]. simpl in Hcall.
      rewrite Hallocs1, Hallocs in Hcall. simpl in Hcall.
      unfold advance in Hcall. simpl in Hcall.
      rewrite bool_decide_eq_false_2 in Hcall by lia. simpl in Hcall.
      injection Hcall as <-. simpl. rewrite Hperm1.
      split; [apply union_subseteq_r|].
      intros j vj Hj Hvj. pose proof (lookup_lt_Some _ _ _ Hvj).
      assert (j = k) as -> by lia. assert (vj = vk) as -> by congruence.
      by apply elem_of_union_l, elem_of_singleton.
Qed.

(** X13. With a single subject the traversal is complete: when the run
    returns, every tuple valid for the subject has been evaluated. *)
Theorem single_subject_complete (limit : nat) (subject : Subject) (st : State)
    (v : list bool) :
  solve limit [subject] = Ok st →
  valid_vector subject v →
  [v] ∈ permutations st.
Proof.
  intros Hrun Hvalid. apply elem_of_Allocation_init in Hvalid.
  apply list_elem_of_lookup in Hvalid as [j Hj].
  pose proof (lookup_lt_Some _ _ _ Hj) as Hlt.
  assert (NoDup (__array (Allocation_init subject))) as Hnodup.
  { unfold Allocation_init. simpl. destruct (type subject);
      apply NoDup_filter, NoDup_product_bool. }
  destruct (percolate_single limit _ Hnodup 0 (initial_state [subject]) st)
    as [_ Hall]; [reflexivity|lia| |exact Hrun|].
  - simpl. intros ? ? _ _ Hin. by apply elem_of_empty in Hin.
  - apply (Hall j v); [lia|done].
Qed.

Lemma single_subject_complete_witness :
  ∃ st, solve 10 [demo_lecture] = Ok st ∧
        [[false; true]] ∈ permutations st.
Proof.
  destruct (returns_Ok (solve 10 [demo_lecture])) as [st Hrun].
  { vm_compute. reflexivity. }
  exists st. split; [exact Hrun|].
  apply (single_subject_complete 10 demo_lecture st [false; true] Hrun).
  split; [reflexivity|]. exists 1%nat. reflexivity.
Defined.

(** ** File names *)

Lemma pretty_N_go_no_underscore (x : N) (s : string) :
  no_underscore s → no_underscore (pretty_N_go x s).
Proof.
  revert s. induction (N.lt_wf_0 x) as [x _ IH]. intros s Hs.
  assert (x = 0 ∨ 0 < x)%N as [->|Hpos] by lia; [by rewrite pretty_N_go_0|].
  rewrite pretty_N_go_step by done. apply IH; [by apply N.div_lt|].
  split; [|done]. unfold pretty_N_char.
  by repeat (discriminate || case_match).
Qed.

Lemma pretty_no_underscore (version : nat) : no_underscore (pretty version).
Proof.
  unfold pretty, pretty_nat, pretty, pretty_N. case_decide.
  - by split.
  - by apply pretty_N_go_no_underscore.
Qed.

Lemma append_underscore_inj (a b c1 c2 : string) :
  no_underscore a → no_underscore b →
  (c1 = ""%string ∨ ∃ r, c1 = String "_" r) →
  (c2 = ""%string ∨ ∃ r, c2 = String "_" r) →
  (a +:+ c1 = b +:+ c2)%string → a = b ∧ c1 = c2.
Proof.
  revert b. induction a as [|x a IH]; intros [|y b] Ha Hb Hc1 Hc2 Heq;
    simpl in *.
  - done.
  - destruct Hc1 as [->|[r ->]]; [done|]. injection Heq as <- _.
    by destruct Hb as [[] _].
  - destruct Hc2 as [->|[r ->]]; [done|]. injection Heq as -> _.
    by destruct Ha as [[] _].
  - injection Heq as -> Heq. destruct Ha as [_ Ha], Hb as [_ Hb].
    destruct (IH b Ha Hb Hc1 Hc2 Heq) as [-> ->]. done.
Qed.

(** X15. The file name tells the version and the completeness: two
    schedules get the same name only when the version counter is the same
    and they have the same incomplete flag. *)
Theorem create_filename_inj (version1 version2 : nat)
    (schedule1 schedule2 : Schedule) :
  create_filename version1 schedule1 = create_filename version2 schedule2 →
  version1 = version2 ∧ is_incomplete schedule1 = is_incomplete schedule2.
Proof.
  unfold create_filename. simpl. intros Heq.
  apply (inj (String.append "schedule")) in Heq.
  apply append_underscore_inj in Heq as [Hversion Hflag];
    [|apply pretty_no_underscore..| |].
  - split; [by apply (inj pretty)|].
    by destruct (is_incomplete schedule1), (is_incomplete schedule2).
  - destruct (is_incomplete schedule1); [right; by eexists|by left].
  - destruct (is_incomplete schedule2); [right; by eexists|by left].
Qed.

Lemma create_filename_inj_witness :
  12%nat = 12%nat ∧ true = true.
Proof.
  apply (create_filename_inj 12 12 (mkSchedule None true)
           (mkSchedule (Some empty_schedule) true)).
  reflexivity.
Defined.

(** ** A slot against the empty table *)

(** X14. On the empty table [is_free] never answers [False]: a slot all of
    whose instants are instants of the week (Monday to Friday, between
    [start_of_day] and [end_of_day], on a multiple of five minutes) is free,
    and a slot with an instant outside them raises [KeyError]. *)
Theorem is_free_empty_schedule (selected_time : Z * Z) :
  ((∀ t, on_tick selected_time t → in_week t) →
   is_free empty_schedule selected_time = Ok true) ∧
  (∀ t, on_tick selected_time t → ¬ in_week t →
        is_free empty_schedule selected_time = Raise KeyError).
Proof.
  split.
  - intros Hweek. apply is_free_true. intros t Hon.
    rewrite empty_schedule_lookup. by rewrite decide_True by auto.
  - intros t Hon Hout.
    destruct (is_free_loop_cases
                (Z.to_nat (selected_time.2 - selected_time.1))
                empty_schedule selected_time.1 selected_time.2)
      as [[[] Hfree]|Hraise]; [| |done].
    + change (is_free empty_schedule selected_time = Ok true) in Hfree.
      rewrite is_free_true in Hfree. specialize (Hfree t Hon).
      rewrite empty_schedule_lookup in Hfree.
      by rewrite decide_False in Hfree.
    + change (is_free empty_schedule selected_time = Ok false) in Hfree.
      apply is_free_false in Hfree as (t' & v & _ & Hv & Hne).
      rewrite empty_schedule_lookup in Hv. destruct (decide _); congruence.
Qed.

(** Monday 8:02 to 9:00: the first instant is not on a multiple of five
    minutes. *)
Lemma is_free_empty_schedule_witness :
  is_free empty_schedule (datetime day0 8 2, datetime day0 9 0)
    = Raise KeyError.
Proof.
  apply (proj2 (is_free_empty_schedule (datetime day0 8 2, datetime day0 9 0))
           (datetime day0 8 2)).
  - apply (bool_decide_unpack _). vm_compute. exact I.
  - apply (bool_decide_unpack _). vm_compute. exact I.
Defined.
